(** * Mapper: a verification development for [mapper.py]

    The script has three modes (scan, filter, capture) built on a handful of
    utility functions.  Each module below embeds one group of functions of
    [mapper.py] and proves the properties stated about it. *)

From Stdlib Require Import ZArith List Lia Bool Ascii String PrimFloat.
From Stdlib Require Import Reals Lra.
From stdpp Require Import base list strings pretty gmap sorting.
Import ListNotations.

(** ** Python values and exceptions shared by the modules *)

Module Py.

(** The exception classes the script can meet. *)
Inductive exn : Type :=
| IndexError
| ValueError
| NameError
| AttributeError
| PlaywrightTimeoutError
| KeyboardInterrupt
| OtherError.

(** The outcome of evaluating an expression or running a block: a value, or
    an exception on its way up. *)
Inductive result (A : Type) : Type :=
| Ok (a : A)
| Raise (e : exn).

Arguments Ok {A} a.
Arguments Raise {A} e.

#[export] Instance result_ret : MRet result := fun A a => Ok a.
#[export] Instance result_bind : MBind result := fun A B f m =>
  match m with
  | Ok a => f a
  | Raise e => Raise e
  end.
#[export] Instance result_fmap : FMap result := fun A B f m =>
  match m with
  | Ok a => Ok (f a)
  | Raise e => Raise e
  end.

#[export] Instance exn_eq_dec : EqDecision exn.
Proof. solve_decision. Defined.

(** [try: body / except classes: handler] *)
Definition try_except {A : Type} (body : result A) (classes : list exn)
  (handler : exn -> result A) : result A :=
  match body with
  | Ok a => Ok a
  | Raise e => if bool_decide (e ∈ classes) then handler e else Raise e
  end.

(** [ch.isspace()] on an ASCII character. *)
Definition isspace (c : ascii) : bool :=
  let n := nat_of_ascii c in
  ((9 <=? n) && (n <=? 13) || (28 <=? n) && (n <=? 32))%nat.

(** [ch.lower()] on an ASCII character. *)
Definition lower_char (c : ascii) : ascii :=
  let n := nat_of_ascii c in
  if ((65 <=? n) && (n <=? 90))%nat then ascii_of_nat (n + 32) else c.

(** [s.lower()] *)
Fixpoint lower (s : string) : string :=
  match s with
  | EmptyString => EmptyString
  | String c s' => String (lower_char c) (lower s')
  end.

(** [s.lstrip()] *)
Fixpoint lstrip (s : string) : string :=
  match s with
  | EmptyString => EmptyString
  | String c s' => if isspace c then lstrip s' else s
  end.

(** [s.rstrip()] *)
Fixpoint rstrip (s : string) : string :=
  match s with
  | EmptyString => EmptyString
  | String c s' =>
      match rstrip s' with
      | EmptyString => if isspace c then EmptyString else String c EmptyString
      | rest => String c rest
      end
  end.

(** [s.strip()] *)
Definition strip (s : string) : string := rstrip (lstrip s).

Example strip_lower : lower (strip "  12 Main St. ") = "12 main st."%string.
Proof. reflexivity. Qed.

End Py.

(** ** The spiral generator, [spiral(width, height, limits, step)] *)

Module Spiral.

Local Open Scope Z_scope.

Definition point : Type := Z * Z.

(** How a generator stops: by [return], or by an exception. *)
Inductive ending : Type :=
| Return
| Raises (e : Py.exn).

(** [directions = [(1, 0), (0, 1), (-1, 0), (0, -1)]] *)
Definition directions : list (Z * Z) := [(1, 0); (0, 1); (-1, 0); (0, -1)].

Section Box.

Variables x_min x_max y_min y_max step : Z.

(** [x < x_min or x > x_max or y < y_min or y > y_max] *)
Definition outside (x y : Z) : bool :=
  (x <? x_min) || (x >? x_max) || (y <? y_min) || (y >? y_max).

(** [(dx > 0 and x >= x_max) or (dx < 0 and x <= x_min) or
     (dy > 0 and y >= y_max) or (dy < 0 and y <= y_min)] *)
Definition at_edge (dx dy x y : Z) : bool :=
  ((dx >? 0) && (x >=? x_max)) || ((dx <? 0) && (x <=? x_min)) ||
  ((dy >? 0) && (y >=? y_max)) || ((dy <? 0) && (y <=? y_min)).

(** The loop [for _ in range(segment_length)]: the points it yields, and the
    position it ends at when it runs to completion ([None] when the
    generator returned inside it). *)
Fixpoint segment (dx dy : Z) (n : nat) (x y : Z) : list point * option point :=
  match n with
  | O => ([], Some (x, y))
  | S n' =>
      let x := x + dx * step in
      let y := y + dy * step in
      if outside x y then ([], None)
      else if at_edge dx dy x y then ([(x, y)], None)
      else let '(pts, r) := segment dx dy n' x y in ((x, y) :: pts, r)
  end.

(** What the loop [for _ in range(2)] hands back to the [while True]. *)
Inductive legs_result : Type :=
| Stopped (e : ending)
| Completed (direction : nat) (x y : Z).

(** The loop [for _ in range(2)], [k] iterations of it. *)
Fixpoint legs (k : nat) (segment_length direction : nat) (x y : Z)
  : list point * legs_result :=
  match k with
  | O => ([], Completed direction x y)
  | S k' =>
      match directions !! direction with
      | None => ([], Stopped (Raises Py.IndexError))
      | Some (dx, dy) =>
          match segment dx dy segment_length x y with
          | (pts, None) => (pts, Stopped Return)
          | (pts, Some (x', y')) =>
              let '(pts', r) :=
                legs k' segment_length ((direction + 1) mod 4)%nat x' y' in
              (pts ++ pts', r)
          end
      end
  end.

(** The loop [while True], run for at most [fuel] iterations: [None] when
    the fuel does not suffice. *)
Fixpoint spiral_loop (fuel : nat) (segment_length direction : nat) (x y : Z)
  : option (list point * ending) :=
  match fuel with
  | O => None
  | S fuel' =>
      match legs 2 segment_length direction x y with
      | (pts, Stopped e) => Some (pts, e)
      | (pts, Completed direction' x' y') =>
          match spiral_loop fuel' (S segment_length) direction' x' y' with
          | Some (pts', e) => Some (pts ++ pts', e)
          | None => None
          end
      end
  end.

End Box.

(** The generator: the list of the points it yields and how it ends. *)
Definition spiral (fuel : nat) (width height : Z) (limits : Z * Z) (step : Z)
  : option (list point * ending) :=
  let x_min := fst limits in
  let x_max := width - fst limits in
  let y_min := snd limits in
  let y_max := height - snd limits in
  let x := width / 2 in
  let y := height / 2 in
  match spiral_loop x_min x_max y_min y_max step fuel 1 0 x y with
  | Some (pts, e) => Some ((x, y) :: pts, e)
  | None => None
  end.

Example spiral_20_20 :
  spiral 5 20 20 (0, 0) 5 =
  Some ([(10, 10); (15, 10); (15, 15); (10, 15); (5, 15); (5, 10); (5, 5);
         (10, 5); (15, 5); (20, 5)], Return).
Proof. reflexivity. Qed.

(** *** Points of one segment *)

Section Segment.

Variables x_min x_max y_min y_max step : Z.
Variables cx cy : Z.

Abbreviation segment := (segment x_min x_max y_min y_max step).
Abbreviation outside := (outside x_min x_max y_min y_max).
Abbreviation at_edge := (at_edge x_min x_max y_min y_max).
Abbreviation legs := (legs x_min x_max y_min y_max step).
Abbreviation spiral_loop := (spiral_loop x_min x_max y_min y_max step).

(** The point [i] steps right and [j] steps down of the center. *)
Definition grid (q : Z * Z) : point :=
  (cx + fst q * step, cy + snd q * step).

(** The [t]-th cell of a segment that starts at cell [(i, j)]. *)
Definition cell (dx dy i j : Z) (t : nat) : Z * Z :=
  (i + Z.of_nat t * dx, j + Z.of_nat t * dy).

Lemma grid_move dx dy i j :
  (fst (grid (i, j)) + dx * step, snd (grid (i, j)) + dy * step)
  = grid (i + dx, j + dy).
Proof. unfold grid; simpl; f_equal; ring. Qed.

Lemma grid_inj q1 q2 : step <> 0 -> grid q1 = grid q2 -> q1 = q2.
Proof.
  destruct q1 as [i1 j1], q2 as [i2 j2]; unfold grid; simpl.
  intros Hs [= Hx Hy].
  assert (i1 * step = i2 * step) as Hi by lia.
  assert (j1 * step = j2 * step) as Hj by lia.
  apply Z.mul_cancel_r in Hi, Hj; try assumption.
  congruence.
Qed.

Lemma segment_inside dx dy n x y p :
  In p (fst (segment dx dy n x y)) -> outside (fst p) (snd p) = false.
Proof.
  revert x y; induction n as [|n IH]; intros x y; simpl; [tauto|].
  destruct (outside (x + dx * step) (y + dy * step)) eqn:Ho; simpl; [tauto|].
  destruct (at_edge dx dy (x + dx * step) (y + dy * step)); simpl.
  - intros [<-|[]]; exact Ho.
  - destruct (segment dx dy n (x + dx * step) (y + dy * step)) as [pts r] eqn:Hs.
    simpl. intros [<-|Hin]; [exact Ho|].
    apply (IH (x + dx * step) (y + dy * step)). rewrite Hs. exact Hin.
Qed.

Lemma segment_cells dx dy n i j :
  exists m : nat,
    (m <= n)%nat /\
    fst (segment dx dy n (fst (grid (i, j))) (snd (grid (i, j))))
    = grid <$> (cell dx dy i j <$> seq 1 m) /\
    forall p, snd (segment dx dy n (fst (grid (i, j))) (snd (grid (i, j)))) = Some p ->
      m = n /\ p = grid (cell dx dy i j n) /\
      ((1 <= n)%nat -> at_edge dx dy (fst p) (snd p) = false).
Proof.
  revert i j; induction n as [|n IH]; intros i j.
  - exists 0%nat. simpl. split; [lia|]. split; [reflexivity|].
    intros p [= <-]. split; [reflexivity|]. split; [|lia].
    unfold cell, grid; simpl. f_equal; ring.
  - cbn [Spiral.segment].
    pose proof (grid_move dx dy i j) as Hmove.
    set (x' := fst (grid (i, j)) + dx * step) in *.
    set (y' := snd (grid (i, j)) + dy * step) in *.
    assert (grid (cell dx dy i j 1) = (x', y')) as Hc1.
    { rewrite Hmove. unfold cell. f_equal. f_equal; lia. }
    destruct (outside x' y').
    { exists 0%nat. simpl. split; [lia|]. split; [reflexivity|]. discriminate. }
    destruct (at_edge dx dy x' y') eqn:He.
    { exists 1%nat. simpl. split; [lia|]. rewrite Hc1. split; [reflexivity|].
      discriminate. }
    destruct (IH (i + dx) (j + dy)) as (m & Hm & Hpts & Hend).
    assert (x' = fst (grid (i + dx, j + dy))) as Hx by (rewrite <- Hmove; reflexivity).
    assert (y' = snd (grid (i + dx, j + dy))) as Hy by (rewrite <- Hmove; reflexivity).
    rewrite <- Hx, <- Hy in Hpts, Hend.
    destruct (segment dx dy n x' y') as [pts r].
    simpl in Hpts, Hend. exists (S m). split; [lia|].
    assert (forall t, cell dx dy (i + dx) (j + dy) t = cell dx dy i j (S t)) as Hshift.
    { intros t. unfold cell. f_equal; lia. }
    split.
    + cbn [fst seq fmap list_fmap]. rewrite Hc1. f_equal. rewrite Hpts. f_equal.
      rewrite <- (seq_shift m 1), <- list_fmap_compose.
      apply list_fmap_ext. intros _ t _. apply Hshift.
    + cbn [snd]. intros p Hp. destruct (Hend p Hp) as (-> & -> & Hedge).
      split; [reflexivity|]. split; [f_equal; apply Hshift|].
      intros _. destruct n as [|n]; [|apply Hedge; lia].
      rewrite Hshift, Hc1. exact He.
Qed.

(** *** The two segments of one turn of the [while] loop *)

Lemma legs_two L d dx dy dx' dy' i j :
  directions !! d = Some (dx, dy) ->
  directions !! ((d + 1) mod 4)%nat = Some (dx', dy') ->
  exists m1 m2 : nat,
    (m1 <= L)%nat /\ (m2 <= L)%nat /\ ((m1 < L)%nat -> m2 = 0%nat) /\
    fst (legs 2 L d (fst (grid (i, j))) (snd (grid (i, j))))
    = grid <$> ((cell dx dy i j <$> seq 1 m1) ++
                (cell dx' dy' (fst (cell dx dy i j L)) (snd (cell dx dy i j L))
                   <$> seq 1 m2)) /\
    match snd (legs 2 L d (fst (grid (i, j))) (snd (grid (i, j)))) with
    | Stopped e => e = Return
    | Completed d2 x y =>
        d2 = (((d + 1) mod 4 + 1) mod 4)%nat /\ m1 = L /\ m2 = L /\
        (x, y) = grid (cell dx' dy' (fst (cell dx dy i j L)) (snd (cell dx dy i j L)) L) /\
        ((1 <= L)%nat ->
         at_edge dx dy (fst (grid (cell dx dy i j L))) (snd (grid (cell dx dy i j L))) = false)
    end.
Proof.
  intros Hd Hd'. cbn [Spiral.legs]. rewrite Hd.
  destruct (segment_cells dx dy L i j) as (m1 & Hm1 & Hpts1 & Hend1).
  destruct (segment dx dy L _ _) as [pts1 [[x1 y1]|]]; cbn [fst snd] in *.
  2:{ exists m1, 0%nat. simpl seq. rewrite fmap_nil, app_nil_r.
      repeat split; auto; lia. }
  destruct (Hend1 _ eq_refl) as (-> & Hp1 & Hedge1).
  rewrite Hd'.
  destruct (cell dx dy i j L) as [i1 j1] eqn:Hc.
  assert (x1 = fst (grid (i1, j1)) /\ y1 = snd (grid (i1, j1))) as [-> ->]
    by (rewrite <- Hp1; auto).
  destruct (segment_cells dx' dy' L i1 j1) as (m2 & Hm2 & Hpts2 & Hend2).
  destruct (segment dx' dy' L _ _) as [pts2 [[x2 y2]|]]; cbn [fst snd] in *.
  2:{ exists L, m2. rewrite fmap_app, Hpts1, Hpts2.
      repeat split; auto; lia. }
  destruct (Hend2 _ eq_refl) as (-> & Hp2 & Hedge2).
  exists L, L. rewrite app_nil_r, fmap_app, Hpts1, Hpts2.
  repeat split; auto; lia.
Qed.

Lemma at_edge_right x y : at_edge 1 0 x y = false -> x < x_max.
Proof.
  unfold Spiral.at_edge. simpl. rewrite Z.geb_leb.
  destruct (Z.leb_spec x_max x); simpl; [discriminate|lia].
Qed.

(** *** Termination of the [while] loop *)

(** Where a turn of the loop starts: turn [2k+1] heads right from column
    [-k], turn [2k] heads left from column [k], which the previous turn
    reached without touching the right edge. *)
Definition turn_start (L d : nat) (i : Z) : Prop :=
  exists k : nat,
    (d = 0%nat /\ L = (2 * k + 1)%nat /\ i = - Z.of_nat k /\
     ((1 <= k)%nat -> cx + Z.of_nat k * step < x_max)) \/
    (d = 2%nat /\ L = (2 * k)%nat /\ i = Z.of_nat k /\ (1 <= k)%nat /\
     cx + Z.of_nat k * step < x_max).

Lemma turn_start_bound L d i :
  1 <= step -> turn_start L d i -> (L <= 2 * Z.to_nat (x_max - cx) + 1)%nat.
Proof.
  intros Hs (k & [(_ & -> & _ & Hk)|(_ & -> & _ & Hk1 & Hk)]).
  - destruct k as [|k]; [lia|]. specialize (Hk ltac:(lia)). nia.
  - nia.
Qed.

Lemma spiral_loop_terminates fuel L d i j :
  1 <= step ->
  turn_start L d i ->
  (2 * Z.to_nat (x_max - cx) + 2 <= fuel + L)%nat ->
  exists pts e, spiral_loop fuel L d (fst (grid (i, j))) (snd (grid (i, j))) = Some (pts, e).
Proof.
  intros Hs. revert L d i j.
  induction fuel as [|fuel IH]; intros L d i j Hstart Hfuel.
  { pose proof (turn_start_bound _ _ _ Hs Hstart). lia. }
  cbn [Spiral.spiral_loop].
  assert (exists dx dy dx' dy',
             directions !! d = Some (dx, dy) /\
             directions !! ((d + 1) mod 4)%nat = Some (dx', dy') /\
             (forall p, at_edge dx dy (fst (grid p)) (snd (grid p)) = false ->
                        d = 0%nat -> cx + fst p * step < x_max) /\
             forall i1 j1, exists j2,
               cell dx' dy' (fst (cell dx dy i1 j1 L)) (snd (cell dx dy i1 j1 L)) L
               = (if decide (d = 0%nat) then i1 + Z.of_nat L else i1 - Z.of_nat L, j2))
    as (dx & dy & dx' & dy' & Hd & Hd' & Hedge & Hcell).
  { destruct Hstart as (k & [(-> & _)|(-> & _)]).
    - exists 1, 0, 0, 1. repeat split; try reflexivity.
      + intros p Hp _. apply at_edge_right in Hp. exact Hp.
      + intros i1 j1. eexists. unfold cell; simpl. f_equal. lia.
    - exists (-1), 0, 0, (-1). repeat split; try reflexivity.
      + intros p _ [=].
      + intros i1 j1. eexists. unfold cell; simpl. f_equal. lia. }
  destruct (legs_two L d dx dy dx' dy' i j Hd Hd') as (m1 & m2 & _ & _ & _ & _ & Hr).
  destruct (legs 2 L d _ _) as [pts [e|d2 x2 y2]]; cbn [snd] in Hr.
  { eauto. }
  destruct Hr as (-> & _ & _ & Hpos & Hnoedge).
  destruct (Hcell i j) as (j2 & Hc2). rewrite Hc2 in Hpos.
  assert (x2 = fst (grid (if decide (d = 0%nat) then i + Z.of_nat L else i - Z.of_nat L, j2)) /\
          y2 = snd (grid (if decide (d = 0%nat) then i + Z.of_nat L else i - Z.of_nat L, j2)))
    as [-> ->] by (rewrite <- Hpos; auto).
  destruct (IH (S L) (((d + 1) mod 4 + 1) mod 4)%nat
              (if decide (d = 0%nat) then i + Z.of_nat L else i - Z.of_nat L) j2)
    as (pts' & e' & ->); [|lia|eauto].
  destruct Hstart as (k & [(-> & -> & -> & Hk)|(-> & -> & -> & Hk1 & Hk)]).
  - exists (S k). right.
    split; [reflexivity|]. split; [lia|]. split; [case_decide; [lia|done]|].
    split; [lia|].
    specialize (Hnoedge ltac:(lia)).
    specialize (Hedge _ Hnoedge eq_refl).
    injection Hd as <- <-.
    unfold cell in Hedge; cbn [fst] in Hedge.
    replace (Z.of_nat (S k)) with (- Z.of_nat k + Z.of_nat (2 * k + 1) * 1) by lia.
    exact Hedge.
  - exists k. left.
    split; [reflexivity|]. split; [lia|]. split; [case_decide; [done|lia]|].
    intros _. exact Hk.
Qed.

(** *** No cell is visited twice *)

(** The cells of the rectangle [a..b] x [c..d]. *)
Definition in_rect (a b c d : Z) (q : Z * Z) : Prop :=
  a <= fst q <= b /\ c <= snd q <= d.

(** The cells visited before a turn of the loop lie in a rectangle, apart
    from the current cell, which sits just off one of its corners. *)
Definition turn_rect (L dir : nat) (i j a b c d : Z) : Prop :=
  (1 <= L)%nat /\ b - a + 1 = Z.of_nat L /\ d - c + 2 = Z.of_nat L /\
  ((dir = 0%nat /\ i = a /\ j = c - 1) \/ (dir = 2%nat /\ i = b /\ j = d + 1)).

Lemma elem_of_cells dx dy i j m q :
  q ∈ cell dx dy i j <$> seq 1 m <->
  exists t : nat, (1 <= t <= m)%nat /\ q = cell dx dy i j t.
Proof.
  rewrite list_elem_of_fmap. split.
  - intros (t & -> & Ht). apply elem_of_seq in Ht. exists t. split; [lia|done].
  - intros (t & Ht & ->). exists t. split; [done|]. apply elem_of_seq. lia.
Qed.

Lemma NoDup_cells dx dy i j m :
  dx <> 0 \/ dy <> 0 -> NoDup (cell dx dy i j <$> seq 1 m).
Proof.
  intros Hd. apply NoDup_fmap_2_strong; [|apply NoDup_seq].
  intros t1 t2 _ _. unfold cell. intros [= H1 H2].
  assert (Z.of_nat t1 * dx = Z.of_nat t2 * dx) as H1' by lia.
  assert (Z.of_nat t1 * dy = Z.of_nat t2 * dy) as H2' by lia.
  destruct Hd as [Hd|Hd];
    [apply Z.mul_cancel_r in H1'|apply Z.mul_cancel_r in H2']; lia.
Qed.

Lemma pair_neq (x1 y1 x2 y2 : Z) :
  (x1, y1) <> (x2, y2) -> x1 <> x2 \/ y1 <> y2.
Proof.
  intros H. destruct (decide (x1 = x2)) as [->|]; [|auto].
  right. intros ->. auto.
Qed.

Ltac cells :=
  repeat match goal with
         | H : _ ∈ _ ++ _ |- _ => apply elem_of_app in H; destruct H as [H|H]
         | H : _ ∈ cell _ _ _ _ <$> seq 1 _ |- _ =>
             apply elem_of_cells in H; destruct H as (? & ? & ?); try subst
         | H : ?q ∈ _, IH : forall q, q ∈ _ -> _ |- _ => apply IH in H; destruct H
         end;
  unfold in_rect, cell in *; cbn [fst snd] in *;
  repeat match goal with
         | |- ~ _ => intros ?
         | |- _ <> _ => intros ?
         | |- _ /\ _ => split
         | H : _ /\ _ |- _ => destruct H
         | H : (_, _) <> (_, _) |- _ => apply pair_neq in H
         end;
  simplify_eq; cbn [fst snd] in *; try tauto; try lia.

Lemma spiral_loop_fresh fuel L dir i j a b c d pts e :
  turn_rect L dir i j a b c d ->
  spiral_loop fuel L dir (fst (grid (i, j))) (snd (grid (i, j))) = Some (pts, e) ->
  e = Return /\
  exists qs : list (Z * Z),
    pts = grid <$> qs /\ NoDup qs /\
    forall q, q ∈ qs -> ~ in_rect a b c d q /\ q <> (i, j).
Proof.
  revert L dir i j a b c d pts e.
  induction fuel as [|fuel IH]; intros L dir i j a b c d pts e Hrect; [discriminate|].
  cbn [Spiral.spiral_loop].
  destruct Hrect as (HL & Hw & Hh & [(-> & -> & ->)|(-> & -> & ->)]).
  - destruct (legs_two L 0 1 0 0 1 a (c - 1) eq_refl eq_refl)
      as (m1 & m2 & Hm1 & Hm2 & Hm12 & Hpts & Hr).
    destruct (legs 2 L 0 _ _) as [pts0 [e0|d2 x2 y2]]; cbn [fst snd] in Hpts, Hr.
    + intros [= <- <-]. split; [exact Hr|]. eexists. split; [exact Hpts|].
      split.
      * apply NoDup_app. split; [apply NoDup_cells; lia|].
        split; [|apply NoDup_cells; lia].
        intros q H1 H2. cells.
      * intros q Hq. cells.
    + destruct Hr as (-> & -> & -> & Hpos & _).
      set (q2 := cell 0 1 (fst (cell 1 0 a (c - 1) L)) (snd (cell 1 0 a (c - 1) L)) L) in *.
      assert (x2 = fst (grid (fst q2, snd q2)) /\ y2 = snd (grid (fst q2, snd q2)))
        as [-> ->] by (rewrite <- surjective_pairing, <- Hpos; auto).
      destruct (spiral_loop fuel (S L) _ _ _) as [[pts' e']|] eqn:Hloop; [|discriminate].
      intros [= <- <-].
      apply (IH _ _ _ _ a (b + 1) (c - 1) d) in Hloop as (-> & qs & -> & Hnd & Hfresh).
      2:{ unfold turn_rect, q2, cell; cbn [fst snd].
          split; [lia|]. split; [lia|]. split; [lia|].
          right. split; [reflexivity|]. lia. }
      split; [reflexivity|]. eexists. split; [rewrite Hpts, <- fmap_app; reflexivity|].
      subst q2. split.
      * apply NoDup_app. split; [|split; [|exact Hnd]].
        -- apply NoDup_app. split; [apply NoDup_cells; lia|].
           split; [|apply NoDup_cells; lia].
           intros q H1 H2. cells.
        -- intros q H1 H2. cells.
      * intros q Hq. cells.
  - destruct (legs_two L 2 (-1) 0 0 (-1) b (d + 1) eq_refl eq_refl)
      as (m1 & m2 & Hm1 & Hm2 & Hm12 & Hpts & Hr).
    destruct (legs 2 L 2 _ _) as [pts0 [e0|d2 x2 y2]]; cbn [fst snd] in Hpts, Hr.
    + intros [= <- <-]. split; [exact Hr|]. eexists. split; [exact Hpts|].
      split.
      * apply NoDup_app. split; [apply NoDup_cells; lia|].
        split; [|apply NoDup_cells; lia].
        intros q H1 H2. cells.
      * intros q Hq. cells.
    + destruct Hr as (-> & -> & -> & Hpos & _).
      set (q2 := cell 0 (-1) (fst (cell (-1) 0 b (d + 1) L)) (snd (cell (-1) 0 b (d + 1) L)) L) in *.
      assert (x2 = fst (grid (fst q2, snd q2)) /\ y2 = snd (grid (fst q2, snd q2)))
        as [-> ->] by (rewrite <- surjective_pairing, <- Hpos; auto).
      destruct (spiral_loop fuel (S L) _ _ _) as [[pts' e']|] eqn:Hloop; [|discriminate].
      intros [= <- <-].
      apply (IH _ _ _ _ (a - 1) b c (d + 1)) in Hloop as (-> & qs & -> & Hnd & Hfresh).
      2:{ unfold turn_rect, q2, cell; cbn [fst snd].
          split; [lia|]. split; [lia|]. split; [lia|].
          left. split; [reflexivity|]. lia. }
      split; [reflexivity|]. eexists. split; [rewrite Hpts, <- fmap_app; reflexivity|].
      subst q2. split.
      * apply NoDup_app. split; [|split; [|exact Hnd]].
        -- apply NoDup_app. split; [apply NoDup_cells; lia|].
           split; [|apply NoDup_cells; lia].
           intros q H1 H2. cells.
        -- intros q H1 H2. cells.
      * intros q Hq. cells.
Qed.

(** *** Cells well inside the box are all visited *)

(** [p] lies strictly inside the box. *)
Definition interior (p : point) : Prop :=
  x_min < fst p < x_max /\ y_min < snd p < y_max.

Lemma interior_passes dx dy p :
  interior p -> outside (fst p) (snd p) = false /\ at_edge dx dy (fst p) (snd p) = false.
Proof.
  intros [Hx Hy]. unfold Spiral.outside, Spiral.at_edge.
  rewrite !Z.gtb_ltb, !Z.geb_leb.
  repeat match goal with
         | |- context [(?a <? ?b)] => destruct (Z.ltb_spec a b)
         | |- context [(?a <=? ?b)] => destruct (Z.leb_spec a b)
         end; simpl; try lia; auto.
Qed.

(** A segment whose first [t] cells are interior yields them all, and runs
    to completion when all its cells are. *)
Lemma segment_progress dx dy n i j (t : nat) :
  (t <= n)%nat ->
  (forall u : nat, (1 <= u <= t)%nat -> interior (grid (cell dx dy i j u))) ->
  (forall u : nat, (1 <= u <= t)%nat ->
     grid (cell dx dy i j u)
     ∈ fst (segment dx dy n (fst (grid (i, j))) (snd (grid (i, j))))) /\
  (t = n ->
   snd (segment dx dy n (fst (grid (i, j))) (snd (grid (i, j))))
   = Some (grid (cell dx dy i j n))).
Proof.
  revert i j t; induction n as [|n IH]; intros i j t Ht Hint.
  { split; [intros u Hu; lia|]. intros _. simpl. f_equal.
    unfold cell, grid; simpl. f_equal; ring. }
  destruct t as [|t].
  { split; [intros u Hu; lia|]. discriminate. }
  cbn [Spiral.segment].
  pose proof (grid_move dx dy i j) as Hmove.
  set (x' := fst (grid (i, j)) + dx * step) in *.
  set (y' := snd (grid (i, j)) + dy * step) in *.
  assert (grid (cell dx dy i j 1) = (x', y')) as Hc1.
  { rewrite Hmove. unfold cell. f_equal. f_equal; lia. }
  destruct (interior_passes dx dy _ (Hint 1%nat ltac:(lia))) as [Ho He].
  rewrite Hc1 in Ho, He. cbn [fst snd] in Ho, He. rewrite Ho, He.
  assert (forall u, cell dx dy (i + dx) (j + dy) u = cell dx dy i j (S u)) as Hshift.
  { intros u. unfold cell. f_equal; lia. }
  destruct (IH (i + dx) (j + dy) t ltac:(lia)) as [Hin Hend].
  { intros u Hu. rewrite Hshift. apply Hint. lia. }
  assert (x' = fst (grid (i + dx, j + dy))) as Hx by (rewrite <- Hmove; reflexivity).
  assert (y' = snd (grid (i + dx, j + dy))) as Hy by (rewrite <- Hmove; reflexivity).
  rewrite <- Hx, <- Hy in Hin, Hend.
  destruct (segment dx dy n x' y') as [pts r]. cbn [fst snd] in *.
  split.
  - intros u Hu. destruct u as [|[|u]]; [lia| |].
    + rewrite Hc1. left.
    + right. rewrite <- Hshift. apply Hin. lia.
  - intros [= ->]. rewrite Hend by reflexivity. rewrite Hshift. reflexivity.
Qed.

(** The same for the two segments of a turn. *)
Lemma legs_two_progress L d dx dy dx' dy' i j (t1 t2 : nat) :
  directions !! d = Some (dx, dy) ->
  directions !! ((d + 1) mod 4)%nat = Some (dx', dy') ->
  (t1 <= L)%nat ->
  (forall u : nat, (1 <= u <= t1)%nat -> interior (grid (cell dx dy i j u))) ->
  (t1 = L -> (t2 <= L)%nat /\
   forall u : nat, (1 <= u <= t2)%nat ->
     interior (grid (cell dx' dy' (fst (cell dx dy i j L)) (snd (cell dx dy i j L)) u))) ->
  (forall u : nat, (1 <= u <= t1)%nat ->
     grid (cell dx dy i j u)
     ∈ fst (legs 2 L d (fst (grid (i, j))) (snd (grid (i, j))))) /\
  (t1 = L ->
   (forall u : nat, (1 <= u <= t2)%nat ->
      grid (cell dx' dy' (fst (cell dx dy i j L)) (snd (cell dx dy i j L)) u)
      ∈ fst (legs 2 L d (fst (grid (i, j))) (snd (grid (i, j))))) /\
   (t2 = L ->
    snd (legs 2 L d (fst (grid (i, j))) (snd (grid (i, j))))
    = Completed (((d + 1) mod 4 + 1) mod 4)%nat
        (fst (grid (cell dx' dy' (fst (cell dx dy i j L)) (snd (cell dx dy i j L)) L)))
        (snd (grid (cell dx' dy' (fst (cell dx dy i j L)) (snd (cell dx dy i j L)) L))))).
Proof.
  intros Hd Hd' Ht1 Hint1 Hint2. cbn [Spiral.legs]. rewrite Hd.
  destruct (segment_progress dx dy L i j t1 Ht1 Hint1) as [Hin1 Hend1].
  destruct (segment dx dy L _ _) as [pts1 r1]. cbn [fst snd] in *.
  destruct r1 as [[x1 y1]|].
  2:{ split; [exact Hin1|]. intros HL. specialize (Hend1 HL). discriminate. }
  rewrite Hd'.
  destruct (decide (t1 = L)) as [HL|HL].
  2:{ split; [|done]. intros u Hu.
      destruct (segment dx' dy' L x1 y1) as [pts2 [[x2 y2]|]]; cbn [fst];
        apply elem_of_app; left; auto. }
  specialize (Hend1 HL). injection Hend1 as Hx1 Hy1.
  destruct (Hint2 HL) as [Ht2 Hint2'].
  destruct (cell dx dy i j L) as [i1 j1] eqn:Hc. cbn [fst snd] in *.
  assert (x1 = fst (grid (i1, j1)) /\ y1 = snd (grid (i1, j1))) as [-> ->].
  { unfold cell in Hc. injection Hc as <- <-. rewrite Hx1, Hy1. unfold grid; simpl. auto. }
  destruct (segment_progress dx' dy' L i1 j1 t2 Ht2 Hint2') as [Hin2 Hend2].
  destruct (segment dx' dy' L _ _) as [pts2 r2]. cbn [fst snd] in *.
  destruct r2 as [[x2 y2]|]; cbn [fst snd].
  - split; [intros u Hu; apply elem_of_app; left; auto|]. intros _. split.
    + intros u Hu. apply elem_of_app. right. rewrite app_nil_r. auto.
    + intros HL2. specialize (Hend2 HL2). injection Hend2 as -> ->. reflexivity.
  - split; [intros u Hu; apply elem_of_app; left; auto|]. intros _. split.
    + intros u Hu. apply elem_of_app. right. auto.
    + intros HL2. specialize (Hend2 HL2). discriminate.
Qed.

(** *** The loop covers every square of interior cells *)

(** The cells within [k] steps of the center, in both directions. *)
Definition in_square (k : nat) (q : Z * Z) : Prop :=
  - Z.of_nat k <= fst q <= Z.of_nat k /\ - Z.of_nat k <= snd q <= Z.of_nat k.

(** Turn [2m+1] starts at cell [(-m, -m)] heading right, turn [2m] at cell
    [(m, m)] heading left; [seen] tells the cells visited before it. *)
Definition turn_cells (L dir m : nat) (q0 : Z * Z) (seen : Z * Z -> Prop) : Prop :=
  (dir = 0%nat /\ L = (2 * m + 1)%nat /\ q0 = (- Z.of_nat m, - Z.of_nat m) /\
   forall q, seen q <->
     in_rect (- Z.of_nat m) (Z.of_nat m) (- Z.of_nat m + 1) (Z.of_nat m) q \/ q = q0) \/
  (dir = 2%nat /\ L = (2 * m)%nat /\ (1 <= m)%nat /\ q0 = (Z.of_nat m, Z.of_nat m) /\
   forall q, seen q <->
     in_rect (- Z.of_nat m + 1) (Z.of_nat m) (- Z.of_nat m + 1) (Z.of_nat m - 1) q \/
     q = q0).

Lemma spiral_loop_covers fuel L dir (k m : nat) q0 seen pts e :
  (forall q, in_square k q -> interior (grid q)) ->
  turn_cells L dir m q0 seen ->
  spiral_loop fuel L dir (fst (grid q0)) (snd (grid q0)) = Some (pts, e) ->
  forall q, in_square k q -> ~ seen q -> grid q ∈ pts.
Proof.
  intros Hsq. revert L dir m q0 seen pts e.
  induction fuel as [|fuel IH]; intros L dir m q0 seen pts e Hturn Hrun;
    [discriminate|].
  cbn [Spiral.spiral_loop] in Hrun.
  intros [qi qj] [Hqi Hqj] Hnew. cbn [fst snd] in Hqi, Hqj.
  destruct Hturn as [(-> & -> & -> & Hseen)|(-> & -> & Hm & -> & Hseen)];
    rewrite Hseen in Hnew; unfold in_rect in Hnew; cbn [fst snd] in Hnew;
    apply Decidable.not_or in Hnew as [Hrect Hpos]; apply pair_neq in Hpos.
  - (* heading right, then down *)
    destruct (decide (k < m)%nat) as [Hkm|Hkm]; [lia|].
    destruct (legs_two_progress (2 * m + 1) 0 1 0 0 1 (- Z.of_nat m) (- Z.of_nat m)
                (if decide (m < k)%nat then 2 * m + 1 else 2 * m)%nat
                (if decide (m < k)%nat then 2 * m + 1 else 0)%nat
                eq_refl eq_refl) as [Hin1 Hfull].
    { case_decide; lia. }
    { intros u Hu. apply Hsq. unfold in_square, cell; cbn [fst snd].
      case_decide; lia. }
    { intros Hfull. case_decide; [|lia]. split; [lia|].
      intros u Hu. apply Hsq. unfold in_square, cell; cbn [fst snd]. lia. }
    cbn [fst snd] in Hrun.
    destruct (decide (qj = - Z.of_nat m /\ - Z.of_nat m < qi <= Z.of_nat m + 1))
      as [[-> Hcol]|Hrow].
    + (* on the first segment *)
      assert (grid (qi, - Z.of_nat m) ∈ fst (legs 2 (2 * m + 1) 0
                (fst (grid (- Z.of_nat m, - Z.of_nat m)))
                (snd (grid (- Z.of_nat m, - Z.of_nat m))))) as Hin.
      { specialize (Hin1 (Z.to_nat (qi + Z.of_nat m))).
        replace (cell 1 0 (- Z.of_nat m) (- Z.of_nat m) (Z.to_nat (qi + Z.of_nat m)))
          with (qi, - Z.of_nat m) in Hin1 by (unfold cell; f_equal; lia).
        apply Hin1. case_decide; lia. }
      destruct (legs 2 (2 * m + 1) 0 _ _) as [pts0 [e0|d2 x2 y2]]; cbn [fst] in Hin.
      * injection Hrun as <- _. exact Hin.
      * destruct (spiral_loop fuel _ d2 x2 y2) as [[pts' e']|]; [|discriminate].
        injection Hrun as <- _. apply elem_of_app. left. exact Hin.
    + (* elsewhere: the turn is complete *)
      assert (m < k)%nat as Hlt by lia.
      rewrite !decide_True in Hfull by done.
      destruct (Hfull eq_refl) as [Hin2 Hdone]. specialize (Hdone eq_refl).
      set (q1 := cell 0 1 (fst (cell 1 0 (- Z.of_nat m) (- Z.of_nat m) (2 * m + 1)))
                   (snd (cell 1 0 (- Z.of_nat m) (- Z.of_nat m) (2 * m + 1)))
                   (2 * m + 1)) in *.
      assert (q1 = (Z.of_nat (S m), Z.of_nat (S m))) as Hq1
        by (unfold q1, cell; cbn [fst snd]; f_equal; lia).
      destruct (legs 2 (2 * m + 1) 0 _ _) as [pts0 r0]; cbn [fst snd] in *.
      subst r0.
      destruct (spiral_loop fuel _ _ _ _) as [[pts' e']|] eqn:Hloop; [|discriminate].
      injection Hrun as <- _. apply elem_of_app.
      destruct (decide (qi = Z.of_nat m + 1 /\ - Z.of_nat m < qj <= Z.of_nat m + 1))
        as [[-> Hrow']|Hcol].
      * left. specialize (Hin2 (Z.to_nat (qj + Z.of_nat m))).
        replace (cell 0 1 (fst (cell 1 0 (- Z.of_nat m) (- Z.of_nat m) (2 * m + 1)))
                   (snd (cell 1 0 (- Z.of_nat m) (- Z.of_nat m) (2 * m + 1)))
                   (Z.to_nat (qj + Z.of_nat m)))
          with (Z.of_nat m + 1, qj) in Hin2 by (unfold cell; cbn [fst snd]; f_equal; lia).
        apply Hin2. lia.
      * right.
        eapply (IH (S (2 * m + 1)) 2%nat (S m) q1 (fun q => in_rect (- Z.of_nat (S m) + 1) (Z.of_nat (S m))
                                    (- Z.of_nat (S m) + 1) (Z.of_nat (S m) - 1) q \/
                                  q = q1)).
        -- right. split; [reflexivity|]. split; [lia|]. split; [lia|].
           split; [exact Hq1|]. reflexivity.
        -- exact Hloop.
        -- split; cbn [fst snd]; lia.
        -- rewrite Hq1. unfold in_rect; cbn [fst snd].
           intros [Hin|[= -> ->]]; lia.
  - (* heading left, then up *)
    destruct (decide (k < m)%nat) as [Hkm|Hkm]; [lia|].
    destruct (legs_two_progress (2 * m) 2 (-1) 0 0 (-1) (Z.of_nat m) (Z.of_nat m)
                (2 * m) (2 * m) eq_refl eq_refl) as [Hin1 Hfull].
    { lia. }
    { intros u Hu. apply Hsq. unfold in_square, cell; cbn [fst snd]. lia. }
    { intros _. split; [lia|].
      intros u Hu. apply Hsq. unfold in_square, cell; cbn [fst snd]. lia. }
    cbn [fst snd] in Hrun.
    destruct (Hfull eq_refl) as [Hin2 Hdone]. specialize (Hdone eq_refl).
    set (q1 := cell 0 (-1) (fst (cell (-1) 0 (Z.of_nat m) (Z.of_nat m) (2 * m)))
                 (snd (cell (-1) 0 (Z.of_nat m) (Z.of_nat m) (2 * m)))
                 (2 * m)) in *.
    assert (q1 = (- Z.of_nat m, - Z.of_nat m)) as Hq1
      by (unfold q1, cell; cbn [fst snd]; f_equal; lia).
    destruct (legs 2 (2 * m) 2 _ _) as [pts0 r0]; cbn [fst snd] in *.
    subst r0.
    destruct (spiral_loop fuel _ _ _ _) as [[pts' e']|] eqn:Hloop; [|discriminate].
    injection Hrun as <- _. apply elem_of_app.
    destruct (decide (qj = Z.of_nat m /\ - Z.of_nat m <= qi < Z.of_nat m))
      as [[-> Hcol]|Hrow].
    { left. specialize (Hin1 (Z.to_nat (Z.of_nat m - qi))).
      replace (cell (-1) 0 (Z.of_nat m) (Z.of_nat m) (Z.to_nat (Z.of_nat m - qi)))
        with (qi, Z.of_nat m) in Hin1 by (unfold cell; f_equal; lia).
      apply Hin1. lia. }
    destruct (decide (qi = - Z.of_nat m /\ - Z.of_nat m <= qj < Z.of_nat m))
      as [[-> Hrow']|Hcol].
    { left. specialize (Hin2 (Z.to_nat (Z.of_nat m - qj))).
      replace (cell 0 (-1) (fst (cell (-1) 0 (Z.of_nat m) (Z.of_nat m) (2 * m)))
                 (snd (cell (-1) 0 (Z.of_nat m) (Z.of_nat m) (2 * m)))
                 (Z.to_nat (Z.of_nat m - qj)))
        with (- Z.of_nat m, qj) in Hin2 by (unfold cell; cbn [fst snd]; f_equal; lia).
      apply Hin2. lia. }
    right.
    eapply (IH (S (2 * m)) 0%nat m q1 (fun q => in_rect (- Z.of_nat m) (Z.of_nat m)
                                (- Z.of_nat m + 1) (Z.of_nat m) q \/ q = q1)).
    + left. split; [reflexivity|]. split; [lia|]. split; [exact Hq1|].
      reflexivity.
    + exact Hloop.
    + split; cbn [fst snd]; lia.
    + rewrite Hq1. unfold in_rect; cbn [fst snd].
      intros [Hin|[= -> ->]]; lia.
Qed.

(** *** Every yielded point is inside the box; more fuel changes nothing *)

Lemma legs_inside k L d x y p :
  p ∈ fst (legs k L d x y) -> outside (fst p) (snd p) = false.
Proof.
  revert d x y; induction k as [|k IH]; intros d x y; cbn [Spiral.legs].
  { intros H. inversion H. }
  destruct (directions !! d) as [[dx dy]|]; [|intros H; inversion H].
  pose proof (segment_inside dx dy L x y p) as Hseg.
  destruct (segment dx dy L x y) as [pts [[x' y']|]]; cbn [fst] in *.
  - specialize (IH ((d + 1) mod 4)%nat x' y').
    destruct (legs k L _ x' y') as [pts' r]. cbn [fst] in *.
    rewrite elem_of_app, !list_elem_of_In. intros [H|H]; auto.
    apply IH. apply list_elem_of_In. exact H.
  - rewrite list_elem_of_In. exact Hseg.
Qed.

Lemma spiral_loop_inside fuel L d x y pts e p :
  spiral_loop fuel L d x y = Some (pts, e) ->
  p ∈ pts -> outside (fst p) (snd p) = false.
Proof.
  revert L d x y pts e; induction fuel as [|fuel IH]; intros L d x y pts e;
    [discriminate|].
  cbn [Spiral.spiral_loop].
  pose proof (legs_inside 2 L d x y p) as Hlegs.
  destruct (legs 2 L d x y) as [pts0 [e0|d2 x2 y2]]; cbn [fst] in Hlegs.
  - intros [= <- <-]. exact Hlegs.
  - destruct (spiral_loop fuel (S L) d2 x2 y2) as [[pts' e']|] eqn:Hloop;
      [|discriminate].
    intros [= <- <-]. rewrite elem_of_app. intros [H|H]; [auto|].
    exact (IH _ _ _ _ _ _ Hloop H).
Qed.

Lemma spiral_loop_mono fuel fuel' L d x y r :
  spiral_loop fuel L d x y = Some r -> (fuel <= fuel')%nat ->
  spiral_loop fuel' L d x y = Some r.
Proof.
  revert fuel' L d x y r; induction fuel as [|fuel IH]; intros fuel' L d x y r;
    [discriminate|].
  intros H Hle. destruct fuel' as [|fuel']; [lia|].
  cbn [Spiral.spiral_loop] in *.
  destruct (legs 2 L d x y) as [pts0 [e0|d2 x2 y2]]; [exact H|].
  destruct (spiral_loop fuel (S L) d2 x2 y2) as [r'|] eqn:Hloop; [|discriminate].
  rewrite (IH fuel' _ _ _ _ _ Hloop ltac:(lia)). exact H.
Qed.

End Segment.

(** *** The generator as a whole *)

(** [p] is reached from the center by whole multiples of [step]. *)
Definition reachable (width height step : Z) (p : point) : Prop :=
  exists i j : Z, p = (width / 2 + i * step, height / 2 + j * step).

(** [p] lies in [[lx, width - lx] x [ly, height - ly]]. *)
Definition in_box (width height : Z) (limits : Z * Z) (p : point) : Prop :=
  fst limits <= fst p <= width - fst limits /\
  snd limits <= snd p <= height - snd limits.

(** The generator returns, and yields each reachable point of the box
    exactly once. *)
Definition visits_every_cell_once (width height : Z) (limits : Z * Z) (step : Z)
  : Prop :=
  exists fuel pts e,
    spiral fuel width height limits step = Some (pts, e) /\
    forall p, reachable width height step p -> in_box width height limits p ->
              length (filter (fun q => q = p) pts) = 1%nat.

Lemma spiral_mono fuel fuel' width height limits step r :
  spiral fuel width height limits step = Some r -> (fuel <= fuel')%nat ->
  spiral fuel' width height limits step = Some r.
Proof.
  unfold spiral. intros H Hle.
  destruct (spiral_loop _ _ _ _ _ fuel _ _ _ _) as [r0|] eqn:Hloop; [|discriminate].
  rewrite (spiral_loop_mono _ _ _ _ _ _ _ _ _ _ _ _ Hloop Hle). exact H.
Qed.

Lemma spiral_deterministic fuel1 fuel2 width height limits step r1 r2 :
  spiral fuel1 width height limits step = Some r1 ->
  spiral fuel2 width height limits step = Some r2 ->
  r1 = r2.
Proof.
  intros H1 H2.
  apply (spiral_mono _ (max fuel1 fuel2)) in H1; [|lia].
  apply (spiral_mono _ (max fuel1 fuel2)) in H2; [|lia].
  congruence.
Qed.

Lemma outside_false x_min x_max y_min y_max x y :
  outside x_min x_max y_min y_max x y = false ->
  x_min <= x <= x_max /\ y_min <= y <= y_max.
Proof.
  unfold outside. rewrite !Z.gtb_ltb, !orb_false_iff, !Z.ltb_ge. lia.
Qed.

(** C8: for every width, height and limits and every [step >= 1] the
    generator terminates: some number of turns of its [while True] loop
    suffices for it to return, having yielded a finite list of points. *)
Theorem spiral_terminates (width height : Z) (limits : Z * Z) (step : Z) :
  1 <= step ->
  exists (fuel : nat) (pts : list point),
    forall fuel', (fuel <= fuel')%nat ->
      spiral fuel' width height limits step = Some (pts, Return).
Proof.
  intros Hs.
  set (x_min := fst limits). set (x_max := width - fst limits).
  set (y_min := snd limits). set (y_max := height - snd limits).
  set (cx := width / 2). set (cy := height / 2).
  assert (fst (grid step cx cy (0, 0)) = cx /\ snd (grid step cx cy (0, 0)) = cy)
    as [Hx Hy] by (unfold grid; simpl; lia).
  destruct (spiral_loop_terminates x_min x_max y_min y_max step cx cy
              (2 * Z.to_nat (x_max - cx) + 1) 1 0 0 0 Hs) as (pts & e & Hloop).
  { exists 0%nat. left. repeat split; try reflexivity. lia. }
  { lia. }
  assert (turn_rect 1 0 0 0 0 0 1 0) as Hrect by (unfold turn_rect; lia).
  destruct (spiral_loop_fresh _ _ _ _ _ _ _ _ _ _ _ _ _ _ _ _ _ _ Hrect Hloop)
    as (-> & _).
  rewrite Hx, Hy in Hloop.
  exists (2 * Z.to_nat (x_max - cx) + 1)%nat, ((cx, cy) :: pts).
  intros fuel' Hle. unfold spiral. cbv zeta. subst x_min x_max y_min y_max cx cy.
  rewrite (spiral_loop_mono _ _ _ _ _ _ _ _ _ _ _ _ Hloop Hle). reflexivity.
Qed.

Lemma spiral_terminates_witness :
  exists (fuel : nat) (pts : list point),
    forall fuel', (fuel <= fuel')%nat ->
      spiral fuel' 20 20 (0, 0) 5 = Some (pts, Return).
Proof. apply spiral_terminates. lia. Defined.




End Spiral.

(** ** Filter mode: the set commands of [filter_locations] *)

Module Filter.

Import Py.

(** A CSV row, as [csv.reader] yields it; a blank line of the file is
    yielded as the empty row. *)
Definition row : Type := list string.

(** A CSV file, as the sequence of rows [csv.reader] yields for it. *)
Definition csv_file : Type := list row.

(** [read_csv(file)]: [set(tuple(row) for row in csv.reader(f))] *)
Definition read_csv (file : csv_file) : gset row := list_to_set file.

(** [row[0]] *)
Definition item0 (r : row) : result string :=
  match r with
  | [] => Raise IndexError
  | a :: _ => Ok a
  end.

(** [row[0].strip().lower()] *)
Definition address_of (r : row) : result string :=
  a ← item0 r; Ok (lower (strip a)).

(** The truth value of a tuple: [if row]. *)
Definition truthy (r : row) : bool :=
  match r with
  | [] => false
  | _ :: _ => true
  end.

(** A comprehension [{elt(x) for x in l if cond(x)}], before the values are
    collected into a set: for each [x] in turn the condition is evaluated,
    then the element; the first exception ends the evaluation. *)
Fixpoint comprehension {A B : Type} (elt : A -> result B) (cond : A -> result bool)
  (l : list A) : result (list B) :=
  match l with
  | [] => Ok []
  | x :: l' =>
      c ← cond x;
      if c : bool then v ← elt x; vs ← comprehension elt cond l'; Ok (v :: vs)
      else comprehension elt cond l'
  end.

(** [sorted(l, key=key)] once the keys are known: a stable insertion into
    the sorted rest, comparing keys with [<]. *)
Fixpoint insert_by_key (k : string) (r : row) (l : list (string * row))
  : list (string * row) :=
  match l with
  | [] => [(k, r)]
  | (k', r') :: l' =>
      if String.ltb k' k then (k', r') :: insert_by_key k r l'
      else (k, r) :: (k', r') :: l'
  end.

Fixpoint sort_by_key (l : list (string * row)) : list (string * row) :=
  match l with
  | [] => []
  | (k, r) :: l' => insert_by_key k r (sort_by_key l')
  end.

(** The three commands that take two files. *)
Inductive set_command : Type :=
| Union
| Intersect
| Difference.

Section Commands.

(** The order in which Python iterates over a set of rows. *)
Variable iter : gset row -> list row.
Hypothesis iter_elements : forall X, iter X ≡ₚ elements X.

(** [{row[0].strip().lower() for row in lines if row}] *)
Definition addresses (lines : gset row) : result (gset string) :=
  list_to_set <$> comprehension address_of (fun r => Ok (truthy r)) (iter lines).

(** [{row for row in lines if row and row[0].strip().lower() in addrs}] *)
Definition rows_in (lines : gset row) (addrs : gset string) : result (gset row) :=
  list_to_set <$>
    comprehension Ok
      (fun r => if truthy r then a ← address_of r; Ok (bool_decide (a ∈ addrs))
                else Ok false)
      (iter lines).

(** The branch [cmd in ['union', 'intersect', 'difference']], from the two
    calls of [read_csv] to the value of [result]. *)
Definition set_result (cmd : set_command) (file1 file2 : csv_file)
  : result (gset row) :=
  let lines1 := read_csv file1 in
  let lines2 := read_csv file2 in
  addresses1 ← addresses lines1;
  addresses2 ← addresses lines2;
  match cmd with
  | Union =>
      r1 ← rows_in lines1 addresses1;
      r2 ← rows_in lines2 addresses2;
      Ok (r1 ∪ r2)
  | Intersect =>
      let common_addresses := addresses1 ∩ addresses2 in
      r1 ← rows_in lines1 common_addresses;
      r2 ← rows_in lines2 common_addresses;
      Ok (r1 ∪ r2)
  | Difference =>
      let diff_addresses := addresses1 ∖ addresses2 in
      rows_in lines1 diff_addresses
  end.

(** The loop of the [unique] command: [seen_addresses] and [result] after
    the rows of [l]. *)
Fixpoint unique_loop (l : list row) (seen_addresses : gset string)
  (result : list row) : Py.result (gset string * list row) :=
  match l with
  | [] => Ok (seen_addresses, result)
  | r :: l' =>
      (* [None]: the handler ran, [continue] *)
      tried ← try_except (Some <$> address_of r) [IndexError] (fun _ => Ok None);
      match tried with
      | None => unique_loop l' seen_addresses result
      | Some address =>
          if bool_decide (address ∉ seen_addresses)
          then unique_loop l' (seen_addresses ∪ {[address]}) (result ++ [r])
          else unique_loop l' seen_addresses result
      end
  end.

(** The [unique] command, from [read_csv] to the value of [result]. *)
Definition unique_result (file : csv_file) : result (list row) :=
  let lines := read_csv file in
  snd <$> unique_loop (iter lines) ∅ [].

(** The [sort] command: [sorted(lines, key=lambda x: x[0].lower())]. *)
Definition sort_result (file : csv_file) : result (list row) :=
  let lines := read_csv file in
  keyed ← mapM (fun x => a ← item0 x; Ok (lower a, x)) (iter lines);
  Ok (snd <$> sort_by_key keyed).

(** *** The comprehensions never raise *)

Lemma comprehension_pure {A B : Type} (elt : A -> result B)
  (cond : A -> result bool) (f : A -> option B) (l : list A) :
  (forall x, x ∈ l ->
     match f x with
     | Some v => cond x = Ok true /\ elt x = Ok v
     | None => cond x = Ok false
     end) ->
  comprehension elt cond l = Ok (omap f l).
Proof.
  induction l as [|x l IH]; intros Hf; [reflexivity|].
  cbn [comprehension omap list_omap].
  pose proof (Hf x ltac:(left)) as Hx.
  rewrite IH by (intros y Hy; apply Hf; right; exact Hy).
  destruct (f x) as [v|].
  - destruct Hx as [-> ->]. reflexivity.
  - rewrite Hx. reflexivity.
Qed.

(** The address key of a row, when it has one. *)
Definition key (r : row) : option string :=
  match r with
  | [] => None
  | a :: _ => Some (lower (strip a))
  end.

Lemma key_address_of r k : key r = Some k <-> address_of r = Ok k.
Proof. destruct r; simpl; split; intros [=]; subst; reflexivity. Qed.

Lemma key_nonempty r : r <> [] <-> is_Some (key r).
Proof.
  destruct r; simpl; split; intros H; try done; try (by eexists).
Qed.

Lemma elem_of_iter (X : gset row) r : r ∈ iter X <-> r ∈ X.
Proof. rewrite iter_elements. apply elem_of_elements. Qed.

Lemma addresses_spec lines :
  exists A : gset string,
    addresses lines = Ok A /\
    forall k, k ∈ A <-> exists r, r ∈ lines /\ key r = Some k.
Proof.
  unfold addresses.
  rewrite (comprehension_pure _ _ key).
  2:{ intros [|a r] _; simpl; auto. }
  eexists. split; [reflexivity|]. intros k.
  rewrite elem_of_list_to_set, list_elem_of_omap.
  split; intros (r & Hr & Hk); exists r; split; auto; apply elem_of_iter; auto.
Qed.

Lemma rows_in_spec lines addrs :
  exists R : gset row,
    rows_in lines addrs = Ok R /\
    forall r, r ∈ R <-> r ∈ lines /\ exists k, key r = Some k /\ k ∈ addrs.
Proof.
  unfold rows_in.
  rewrite (comprehension_pure _ _
             (fun r => k ← key r; if bool_decide (k ∈ addrs) then Some r else None)).
  2:{ intros [|a r] _; simpl; auto. case_bool_decide; simpl; auto. }
  eexists. split; [reflexivity|]. intros r.
  rewrite elem_of_list_to_set, list_elem_of_omap. split.
  - intros (r' & Hr' & Hk). apply elem_of_iter in Hr'.
    destruct (key r') as [k|] eqn:Hkey; simpl in Hk; [|discriminate].
    case_bool_decide; simplify_eq. eauto.
  - intros (Hr & k & Hkey & Hk). exists r. split; [apply elem_of_iter; auto|].
    rewrite Hkey. simpl. rewrite bool_decide_eq_true_2 by done. reflexivity.
Qed.

(** What each of the three commands computes. *)
Lemma set_result_spec cmd file1 file2 :
  exists R : gset row,
    set_result cmd file1 file2 = Ok R /\
    forall r, r ∈ R <->
      match cmd with
      | Union => r <> [] /\ (r ∈ file1 \/ r ∈ file2)
      | Intersect =>
          r <> [] /\ (r ∈ file1 \/ r ∈ file2) /\
          (exists r1, r1 ∈ file1 /\ key r1 = key r) /\
          (exists r2, r2 ∈ file2 /\ key r2 = key r)
      | Difference =>
          r <> [] /\ r ∈ file1 /\ forall r2, r2 ∈ file2 -> key r2 <> key r
      end.
Proof.
  unfold set_result.
  destruct (addresses_spec (read_csv file1)) as (A1 & -> & HA1).
  destruct (addresses_spec (read_csv file2)) as (A2 & -> & HA2).
  cbn [mbind result_bind].
  assert (forall (f : csv_file) r, r ∈ read_csv f <-> r ∈ f) as Hread
    by (intros; apply elem_of_list_to_set).
  setoid_rewrite Hread in HA1. setoid_rewrite Hread in HA2.
  destruct cmd.
  - destruct (rows_in_spec (read_csv file1) A1) as (R1 & -> & HR1).
    destruct (rows_in_spec (read_csv file2) A2) as (R2 & -> & HR2).
    cbn [mbind result_bind]. eexists. split; [reflexivity|]. intros r.
    rewrite elem_of_union, HR1, HR2, !Hread, key_nonempty. unfold is_Some.
    setoid_rewrite HA1. setoid_rewrite HA2. split.
    + intros [(Hr & k & Hk & _)|(Hr & k & Hk & _)]; eauto.
    + intros ((k & Hk) & [Hr|Hr]); [left|right]; (split; [done|]);
        exists k; (split; [done|]); exists r; done.
  - destruct (rows_in_spec (read_csv file1) (A1 ∩ A2)) as (R1 & -> & HR1).
    destruct (rows_in_spec (read_csv file2) (A1 ∩ A2)) as (R2 & -> & HR2).
    cbn [mbind result_bind]. eexists. split; [reflexivity|]. intros r.
    rewrite elem_of_union, HR1, HR2, !Hread, key_nonempty. unfold is_Some.
    setoid_rewrite elem_of_intersection.
    setoid_rewrite HA1. setoid_rewrite HA2.
    split.
    + intros [(Hr & k & Hk & (r1 & ? & ?) & (r2 & ? & ?))
             |(Hr & k & Hk & (r1 & ? & ?) & (r2 & ? & ?))];
        (split; [eauto|]); (split; [eauto|]);
        (split; [exists r1|exists r2]); split; auto; congruence.
    + intros ((k & Hk) & Hr & (r1 & ? & ?) & (r2 & ? & ?)).
      destruct Hr; [left|right]; (split; [done|]); exists k;
        (split; [done|]); split; [exists r1|exists r2|exists r1|exists r2];
        split; auto; congruence.
  - destruct (rows_in_spec (read_csv file1) (A1 ∖ A2)) as (R1 & -> & HR1).
    eexists. split; [reflexivity|]. intros r.
    rewrite HR1, !Hread, key_nonempty. unfold is_Some.
    setoid_rewrite elem_of_difference.
    setoid_rewrite HA1. setoid_rewrite HA2.
    split.
    + intros (Hr & k & Hk & _ & Hno). split; [eauto|]. split; [done|].
      intros r2 Hr2 Heq. apply Hno. exists r2. split; [done|congruence].
    + intros ((k & Hk) & Hr & Hno). split; [done|]. exists k. split; [done|].
      split; [eauto|]. intros (r2 & Hr2 & Hk2). apply (Hno r2 Hr2). congruence.
Qed.

Lemma address_of_key r :
  address_of r = match key r with Some k => Ok k | None => Raise IndexError end.
Proof. destruct r; reflexivity. Qed.

Lemma key_eq_address_of r1 r2 : key r1 = key r2 <-> address_of r1 = address_of r2.
Proof.
  rewrite !address_of_key. destruct (key r1), (key r2); split; congruence.
Qed.

(** C5: the Union command outputs exactly the non-empty rows that appear in
    either file; swapping the two files gives the same set, and the union of
    a file with itself is the set of that file's non-empty rows. *)
Theorem union_command_set_algebra (file1 file2 : csv_file) :
  exists R : gset row,
    set_result Union file1 file2 = Ok R /\
    (forall r, r ∈ R <-> r <> [] /\ (r ∈ file1 \/ r ∈ file2)) /\
    set_result Union file2 file1 = Ok R /\
    exists R1 : gset row,
      set_result Union file1 file1 = Ok R1 /\
      forall r, r ∈ R1 <-> r <> [] /\ r ∈ file1.
Proof.
  destruct (set_result_spec Union file1 file2) as (R & HR & Hin).
  destruct (set_result_spec Union file2 file1) as (R' & HR' & Hin').
  destruct (set_result_spec Union file1 file1) as (R1 & HR1 & Hin1).
  exists R. split; [exact HR|]. split; [exact Hin|]. split.
  - rewrite HR'. f_equal. apply set_eq. intros r. rewrite Hin, Hin'. tauto.
  - exists R1. split; [exact HR1|]. intros r. rewrite Hin1. tauto.
Qed.


(** *** The [sort] and [unique] commands *)

(** The order of the sort keys: [k1 <= k2] on strings. *)
Definition key_le (p1 p2 : string * row) : Prop :=
  String.leb (fst p1) (fst p2) = true.

(** Two rows in the order of their sort keys [x[0].lower()]. *)
Definition sort_key_le (r1 r2 : row) : Prop :=
  exists a1 a2, item0 r1 = Ok a1 /\ item0 r2 = Ok a2 /\
                String.leb (lower a1) (lower a2) = true.

Lemma ltb_leb k1 k2 : String.ltb k1 k2 = true -> String.leb k1 k2 = true.
Proof. unfold String.ltb, String.leb. destruct (String.compare k1 k2); congruence. Qed.

Lemma ltb_false_leb k1 k2 : String.ltb k1 k2 = false -> String.leb k2 k1 = true.
Proof.
  unfold String.ltb, String.leb. rewrite (String.compare_antisym k2 k1).
  destruct (String.compare k1 k2); simpl; congruence.
Qed.

Lemma insert_by_key_perm k r l : insert_by_key k r l ≡ₚ (k, r) :: l.
Proof.
  induction l as [|[k' r'] l IH]; simpl; [reflexivity|].
  destruct (String.ltb k' k); [|reflexivity].
  rewrite IH. apply Permutation_swap.
Qed.

Lemma sort_by_key_perm l : sort_by_key l ≡ₚ l.
Proof.
  induction l as [|[k r] l IH]; simpl; [reflexivity|].
  rewrite insert_by_key_perm, IH. reflexivity.
Qed.

Lemma insert_by_key_HdRel p k r l :
  key_le p (k, r) -> HdRel key_le p l -> HdRel key_le p (insert_by_key k r l).
Proof.
  intros Hp Hl. destruct l as [|[k' r'] l]; simpl; [constructor; exact Hp|].
  destruct (String.ltb k' k); constructor; [|exact Hp].
  inversion Hl; assumption.
Qed.

Lemma insert_by_key_sorted k r l :
  Sorted key_le l -> Sorted key_le (insert_by_key k r l).
Proof.
  induction 1 as [|[k' r'] l Hs IH Hhd]; simpl; [repeat constructor|].
  destruct (String.ltb k' k) eqn:Hlt.
  - constructor; [exact IH|]. apply insert_by_key_HdRel; [|exact Hhd].
    apply ltb_leb. exact Hlt.
  - constructor; [constructor; assumption|]. constructor.
    apply ltb_false_leb. exact Hlt.
Qed.

Lemma sort_by_key_sorted l : Sorted key_le (sort_by_key l).
Proof.
  induction l as [|[k r] l IH]; simpl; [constructor|].
  apply insert_by_key_sorted. exact IH.
Qed.

(** The keys of [sorted] are computed for every row before any comparison:
    an empty row raises, rows with a first field do not. *)
Lemma sort_keys_ok (l : list row) :
  (forall r, r ∈ l -> r <> []) ->
  exists keyed,
    mapM (fun x => a ← item0 x; Ok (lower a, x)) l = Ok keyed /\
    snd <$> keyed = l /\
    Forall (fun p => exists a, item0 (snd p) = Ok a /\ fst p = lower a) keyed.
Proof.
  induction l as [|r l IH]; intros Hne.
  { exists []. repeat split. constructor. }
  destruct IH as (keyed & Hk & Hsnd & Hall).
  { intros r' Hr'. apply Hne. right. exact Hr'. }
  destruct r as [|a r]; [exfalso; apply (Hne []); [left|reflexivity]|].
  exists ((lower a, a :: r) :: keyed). cbn [mapM]. rewrite Hk. simpl.
  split; [reflexivity|]. split; [f_equal; exact Hsnd|].
  constructor; [|exact Hall]. exists a. split; reflexivity.
Qed.

Lemma sort_keys_raise (l : list row) :
  [] ∈ l -> mapM (fun x => a ← item0 x; Ok (lower a, x)) l = Raise IndexError.
Proof.
  induction l as [|r l IH]; intros Hin; [inversion Hin|].
  cbn [mapM]. destruct r as [|a r]; [reflexivity|].
  rewrite IH; [reflexivity|].
  apply elem_of_cons in Hin as [[=]|Hin]. exact Hin.
Qed.

Lemma unique_loop_ok (l : list row) seen result :
  exists seen' result',
    unique_loop l seen result = Ok (seen', result') /\
    forall r, r ∈ result' -> r ∈ result \/ (r ∈ l /\ r <> []).
Proof.
  revert seen result; induction l as [|r l IH]; intros seen result.
  { exists seen, result. split; [reflexivity|]. auto. }
  cbn [unique_loop]. destruct r as [|a r]; simpl.
  - destruct (IH seen result) as (seen' & result' & -> & Hin).
    exists seen', result'. split; [reflexivity|].
    intros r Hr. destruct (Hin r Hr) as [|[? ?]]; [auto|].
    right. split; [right|]; assumption.
  - destruct (bool_decide (lower (strip a) ∉ seen)).
    + edestruct IH as (seen' & result' & Heq & Hin).
      exists seen', result'. split; [exact Heq|].
      intros r0 Hr0. destruct (Hin r0 Hr0) as [H|[? ?]].
      * apply elem_of_app in H as [H|H]; [auto|].
        apply list_elem_of_singleton in H as ->. right. split; [left|done].
      * right. split; [right|]; assumption.
    + destruct (IH seen result) as (seen' & result' & -> & Hin).
      exists seen', result'. split; [reflexivity|].
      intros r0 Hr0. destruct (Hin r0 Hr0) as [|[? ?]]; [auto|].
      right. split; [right|]; assumption.
Qed.


End Commands.

(** The commands on concrete files, iterating in the order of [elements]. *)

Definition file_a : csv_file :=
  [["Elm St 2"; "50.1"; "30.1"]; ["Ash Rd 7"; "50.2"; "30.2"]]%string.

Definition file_b : csv_file :=
  [["ash rd 7 "; "50.2"; "30.2"]; []; ["Oak Ave 1"; "50.3"; "30.3"]]%string.

Lemma union_command_set_algebra_witness :
  exists R : gset row,
    set_result elements Union file_a file_b = Ok R /\
    (forall r, r ∈ R <-> r <> [] /\ (r ∈ file_a \/ r ∈ file_b)) /\
    set_result elements Union file_b file_a = Ok R /\
    exists R1 : gset row,
      set_result elements Union file_a file_a = Ok R1 /\
      forall r, r ∈ R1 <-> r <> [] /\ r ∈ file_a.
Proof. apply union_command_set_algebra. intros X. reflexivity. Defined.



Example sort_file_a :
  sort_result elements file_a
  = Ok [["Ash Rd 7"; "50.2"; "30.2"]; ["Elm St 2"; "50.1"; "30.1"]]%string.
Proof. vm_compute. reflexivity. Qed.

Example difference_a_b :
  set_result elements Difference file_a file_b
  = Ok {[ ["Elm St 2"; "50.1"; "30.1"]%string ]}.
Proof. vm_compute. reflexivity. Qed.

End Filter.

(** ** Output files: [get_unique_filename] and [write_csv] *)

Module Files.

(** The files that exist, each with the rows it holds. *)
Abbreviation filesystem := (gmap string (list Filter.row)).

(** [os.path.exists(path)] *)
Definition path_exists (fs : filesystem) (path : string) : bool :=
  bool_decide (is_Some (fs !! path)).

(** [f'locations/{prefix}{index}.csv'] *)
Definition filename (prefix : string) (index : nat) : string :=
  "locations/" +:+ prefix +:+ pretty index +:+ ".csv".

(** The loop of [get_unique_filename], entered with the current [index] and
    run for at most [fuel] iterations. *)
Fixpoint get_unique_filename_loop (fuel : nat) (fs : filesystem)
  (prefix : string) (index : nat) : option string :=
  match fuel with
  | O => None
  | S fuel' =>
      if negb (path_exists fs (filename prefix index))
      then Some (filename prefix index)
      else get_unique_filename_loop fuel' fs prefix (index + 1)
  end.

(** [get_unique_filename(prefix)] *)
Definition get_unique_filename (fuel : nat) (fs : filesystem) (prefix : string)
  : option string :=
  get_unique_filename_loop fuel fs prefix 0.

(** [write_csv(data, output_file)]: the file is created or truncated, then
    holds the rows of [data]. *)
Definition write_csv (data : list Filter.row) (output_file : string)
  (fs : filesystem) : filesystem :=
  <[output_file := data]> fs.

(** What scan mode and filter mode do with their rows: ask for a fresh name
    and write the rows there. *)
Definition save_result (fuel : nat) (fs : filesystem) (prefix : string)
  (data : list Filter.row) : option (string * filesystem) :=
  output_file ← get_unique_filename fuel fs prefix;
  Some (output_file, write_csv data output_file fs).

Lemma length_append (s t : string) :
  String.length (s +:+ t) = (String.length s + String.length t)%nat.
Proof. induction s as [|c s IH]; simpl; [reflexivity|]. rewrite IH. reflexivity. Qed.

Lemma append_inj_r (s1 s2 t : string) : s1 +:+ t = s2 +:+ t -> s1 = s2.
Proof.
  revert s2; induction s1 as [|c s1 IH]; intros [|c2 s2] H; simpl in H.
  - reflexivity.
  - apply (f_equal String.length) in H. simpl in H.
    rewrite !length_append in H. simpl in H. lia.
  - apply (f_equal String.length) in H. simpl in H.
    rewrite !length_append in H. simpl in H. lia.
  - injection H as -> H. f_equal. apply IH. exact H.
Qed.

#[local] Instance filename_inj prefix : Inj (=) (=) (filename prefix).
Proof.
  intros i j H. unfold filename in H.
  apply String.app_inj, String.app_inj, append_inj_r in H.
  apply (inj pretty). exact H.
Qed.

(** Among the first [size fs + 1] names one is free. *)
Lemma free_index (fs : filesystem) prefix :
  exists k, (k <= size fs)%nat /\ path_exists fs (filename prefix k) = false.
Proof.
  destruct (decide (Forall (fun j => path_exists fs (filename prefix j) = true)
                      (seq 0 (S (size fs))))) as [Hall|Hex].
  - exfalso.
    assert (list_to_set (filename prefix <$> seq 0 (S (size fs))) ⊆ dom fs) as Hsub.
    { intros p Hp. apply elem_of_list_to_set, list_elem_of_fmap in Hp as (j & -> & Hj).
      rewrite Forall_forall in Hall. specialize (Hall j Hj).
      apply bool_decide_eq_true in Hall. apply elem_of_dom. exact Hall. }
    apply subseteq_size in Hsub.
    rewrite size_list_to_set in Hsub by (apply NoDup_fmap_2; [apply _|apply NoDup_seq]).
    rewrite length_fmap, length_seq, size_dom in Hsub. lia.
  - apply not_Forall_Exists in Hex; [|apply _].
    apply Exists_exists in Hex as (k & Hk & Hfree). apply elem_of_seq in Hk.
    exists k. split; [lia|]. simpl in Hfree.
    destruct (path_exists fs (filename prefix k)); [done|reflexivity].
Qed.

Lemma get_unique_filename_loop_spec fuel (fs : filesystem) prefix index k :
  (index <= k < index + fuel)%nat ->
  path_exists fs (filename prefix k) = false ->
  exists m, (index <= m <= k)%nat /\
    get_unique_filename_loop fuel fs prefix index = Some (filename prefix m) /\
    path_exists fs (filename prefix m) = false /\
    forall i, (index <= i < m)%nat -> path_exists fs (filename prefix i) = true.
Proof.
  revert index; induction fuel as [|fuel IH]; intros index Hk Hfree; [lia|].
  cbn [get_unique_filename_loop].
  destruct (path_exists fs (filename prefix index)) eqn:Hex; simpl.
  - destruct (IH (index + 1)%nat) as (m & Hm & Hrun & Hm_free & Hbelow).
    { destruct (decide (k = index)) as [->|]; [congruence|lia]. }
    { exact Hfree. }
    exists m. split; [lia|]. split; [exact Hrun|]. split; [exact Hm_free|].
    intros i Hi. destruct (decide (i = index)) as [->|]; [exact Hex|].
    apply Hbelow. lia.
  - exists index. split; [lia|]. split; [reflexivity|]. split; [exact Hex|].
    intros i Hi. lia.
Qed.

(** C9: [get_unique_filename] returns, and the path it returns does not
    exist at that moment; it is the path of the prefix with the smallest
    index not taken.  So the result of a scan or of a filter command goes to
    a new file of [locations/], and every file that existed is left as it
    was. *)
Theorem get_unique_filename_fresh (fs : filesystem) (prefix : string) :
  exists index : nat,
    (forall fuel, (size fs < fuel)%nat ->
       get_unique_filename fuel fs prefix = Some (filename prefix index)) /\
    path_exists fs (filename prefix index) = false /\
    (forall i, (i < index)%nat -> path_exists fs (filename prefix i) = true) /\
    forall fuel data, (size fs < fuel)%nat ->
      exists fs',
        save_result fuel fs prefix data = Some (filename prefix index, fs') /\
        fs' !! filename prefix index = Some data /\
        forall path, path_exists fs path = true -> fs' !! path = fs !! path.
Proof.
  destruct (free_index fs prefix) as (k & Hk & Hfree).
  destruct (get_unique_filename_loop_spec (S (size fs)) fs prefix 0 k
              ltac:(lia) Hfree) as (m & Hm & Hrun & Hm_free & Hbelow).
  assert (forall fuel, (size fs < fuel)%nat ->
            get_unique_filename fuel fs prefix = Some (filename prefix m)) as Hget.
  { intros fuel Hfuel. unfold get_unique_filename.
    destruct (get_unique_filename_loop_spec fuel fs prefix 0 k ltac:(lia) Hfree)
      as (m' & Hm' & Hrun' & Hm'_free & Hbelow').
    rewrite Hrun'. f_equal. f_equal.
    destruct (Nat.lt_trichotomy m m') as [Hlt|[->|Hlt]]; [|reflexivity|].
    + rewrite Hbelow' in Hm_free by lia. discriminate.
    + rewrite Hbelow in Hm'_free by lia. discriminate. }
  exists m. split; [exact Hget|]. split; [exact Hm_free|]. split.
  - intros i Hi. apply Hbelow. lia.
  - intros fuel data Hfuel. unfold save_result. rewrite (Hget fuel Hfuel).
    eexists. split; [reflexivity|]. unfold write_csv. split.
    + apply lookup_insert_eq.
    + intros path Hpath. apply lookup_insert_ne. intros <-. congruence.
Qed.

Example get_unique_filename_taken :
  get_unique_filename 3
    {[ "locations/union_result_0.csv"%string := [];
       "locations/union_result_1.csv"%string := [] ]} "union_result_"
  = Some "locations/union_result_2.csv"%string.
Proof. vm_compute. reflexivity. Qed.

End Files.

(** ** Input validation: [validate_coordinates] and [validate_radius] *)

Module Validate.

Import Py.

(* 0.01 stands for the nearest double, as it does in Python. *)
#[local] Set Warnings "-inexact-float".

Section Validators.

(** Python's [float] on a string: the double it denotes, [None] when the
    string is no float literal. *)
Variable parse_float : string -> option float.

(** [float(x)] for a string [x]: [ValueError] when it does not parse. *)
Definition float_of_str (x : string) : result float :=
  match parse_float x with
  | Some v => Ok v
  | None => Raise ValueError
  end.

(** [float(x)] for a float [x]. *)
Definition float_of_float (x : float) : result float := Ok x.

(** [lo <= x <= hi], that is [lo <= x and x <= hi]. *)
Definition between (lo x hi : float) : bool :=
  PrimFloat.leb lo x && PrimFloat.leb x hi.

Definition validate_coordinates (lat lon : string) : result bool :=
  try_except
    (lat ← float_of_str lat;
     lon ← float_of_str lon;
     lat' ← float_of_float lat;
     if between (-90) lat' 90
     then lon' ← float_of_float lon; Ok (between (-180) lon' 180)
     else Ok false)
    [ValueError]
    (fun _ => Ok false).

Definition validate_radius (radius : string) : result bool :=
  try_except
    (radius ← float_of_str radius;
     Ok (between 0.01 radius 10000))
    [ValueError]
    (fun _ => Ok false).

(** C7: [validate_coordinates] returns [True] exactly when both arguments
    parse as floats with the latitude in [-90, 90] and the longitude in
    [-180, 180]; [validate_radius] returns [True] exactly when its argument
    parses as a float in [0.01, 10000].  On every other string, a
    non-numeric one included, they return [False]: neither ever raises. *)
Theorem validators_total_and_exact (lat lon radius : string) :
  (validate_coordinates lat lon = Ok true <->
   exists a b, parse_float lat = Some a /\ parse_float lon = Some b /\
               between (-90) a 90 = true /\ between (-180) b 180 = true) /\
  (validate_coordinates lat lon = Ok true \/ validate_coordinates lat lon = Ok false) /\
  (parse_float lat = None \/ parse_float lon = None ->
   validate_coordinates lat lon = Ok false) /\
  (validate_radius radius = Ok true <->
   exists r, parse_float radius = Some r /\ between 0.01 r 10000 = true) /\
  (validate_radius radius = Ok true \/ validate_radius radius = Ok false) /\
  (parse_float radius = None -> validate_radius radius = Ok false).
Proof.
  unfold validate_coordinates, validate_radius, float_of_str, float_of_float.
  destruct (parse_float lat) as [a|], (parse_float lon) as [b|],
    (parse_float radius) as [r|]; simpl;
    try destruct (between (-90) a 90) eqn:Ha; simpl;
    try destruct (between (-180) b 180) eqn:Hb; simpl;
    try destruct (between 0.01 r 10000) eqn:Hr;
    repeat split; auto; try discriminate;
    try (intros (? & ? & ? & ? & ? & ?); congruence);
    try (intros (? & ? & ?); congruence);
    try (intros [?|?]; congruence); eauto 10.
Qed.

End Validators.

(** The validators on a few inputs, with the values [float] gives them. *)
Definition parse_sample (x : string) : option float :=
  if String.eqb x "50.45" then Some 50.45%float
  else if String.eqb x "30.52" then Some 30.52%float
  else if String.eqb x "-90.5" then Some (-90.5)%float
  else if String.eqb x "nan" then Some PrimFloat.nan
  else if String.eqb x "0.005" then Some 0.005%float
  else None.

Example validate_coordinates_sample :
  validate_coordinates parse_sample "50.45" "30.52" = Ok true /\
  validate_coordinates parse_sample "-90.5" "30.52" = Ok false /\
  validate_coordinates parse_sample "nan" "30.52" = Ok false /\
  validate_coordinates parse_sample "north" "30.52" = Ok false /\
  validate_radius parse_sample "0.005" = Ok false /\
  validate_radius parse_sample "" = Ok false.
Proof. vm_compute. repeat split. Qed.

End Validate.

(** ** The zoom level: [compute_zoom] *)

Module Zoom.

Local Open Scope R_scope.

(** The arithmetic of [compute_zoom] is taken over the real numbers: the
    radius, [math.log2] and the sum are exact, and [round] rounds halves to
    the even neighbour as Python does. *)

(** [math.log2(x)] *)
Definition log2 (x : R) : R := ln x / ln 2.

(** [round(x)] *)
Definition round (x : R) : Z :=
  let n := Zfloor x in
  let d := x - IZR n in
  if Rlt_dec d (1 / 2) then n
  else if Rlt_dec (1 / 2) d then (n + 1)%Z
  else if Z.even n then n else (n + 1)%Z.

Definition compute_zoom (kilometers : R) : Z :=
  let meters := kilometers * 1000 in
  if Rle_dec meters 71 then 21%Z
  else if Rle_dec 1164888 meters then 7%Z
  else
    let init_meters := 1165116 in
    let ratio := init_meters / meters in
    let exponent := log2 ratio in
    let zoom := round (6 + exponent) in
    zoom.

Lemma round_below_half (n : Z) (x : R) :
  IZR n <= x < IZR n + 1 / 2 -> round x = n.
Proof.
  intros Hx. unfold round.
  rewrite (Zfloor_eq n x) by lra.
  destruct (Rlt_dec (x - IZR n) (1 / 2)) as [_|Hn]; [reflexivity|lra].
Qed.

Lemma ln_2_pos : 0 < ln 2.
Proof. rewrite <- ln_1. apply ln_increasing; lra. Qed.

(** [0 < log2 x < 1/2] for [1 < x] with [x * x < 2]. *)
Lemma log2_below_half (x : R) : 1 < x -> x * x < 2 -> 0 < log2 x < 1 / 2.
Proof.
  intros H1 H2. unfold log2. pose proof ln_2_pos as Hln2.
  assert (0 < ln x) as Hpos by (rewrite <- ln_1; apply ln_increasing; lra).
  assert (ln x + ln x < ln 2) as Hlt.
  { rewrite <- ln_mult by lra. apply ln_increasing; [nra|lra]. }
  split.
  - apply Rdiv_lt_0_compat; assumption.
  - apply (Rmult_lt_reg_r (ln 2)); [assumption|].
    unfold Rdiv. rewrite Rmult_assoc, Rinv_l by lra. lra.
Qed.

(** C2 fails on the code: a radius of 1000 km, which [validate_radius]
    accepts, gets zoom 6, below the clamp at 7, and the larger radius of
    2000 km gets the larger zoom 7. *)
Theorem compute_zoom_below_clamp :
  0.01 <= 1000 <= 10000 /\ 0.01 <= 2000 <= 10000 /\
  compute_zoom 1000 = 6%Z /\ compute_zoom 2000 = 7%Z.
Proof.
  split; [lra|]. split; [lra|]. split.
  - unfold compute_zoom. cbv zeta.
    destruct (Rle_dec (1000 * 1000) 71) as [H|_]; [lra|].
    destruct (Rle_dec 1164888 (1000 * 1000)) as [H|_]; [lra|].
    apply round_below_half.
    assert (1000 * 1000 = 1000000) as -> by lra.
    pose proof (log2_below_half (1165116 / 1000000) ltac:(lra) ltac:(lra)) as Hlog.
    lra.
  - unfold compute_zoom.
    destruct (Rle_dec (2000 * 1000) 71) as [H|_]; [lra|].
    destruct (Rle_dec 1164888 (2000 * 1000)) as [_|H]; [reflexivity|lra].
Qed.

End Zoom.

(** ** Capture mode: [capture_location] and [find_images] *)

Module Capture.

Import Py.

(** The names bound at module level of [mapper.py]: its imports, functions
    and the [modules] table (a worker thread sees the whole module). *)
Definition module_globals : list string :=
  ["os"; "re"; "csv"; "math"; "time"; "concurrent"; "sync_playwright";
   "PlaywrightTimeoutError"; "geodesic"; "partial"; "Fore"; "Back"; "Style";
   "init"; "tqdm"; "validate_coordinates"; "validate_radius"; "compute_zoom";
   "sanitize"; "get_input"; "get_unique_filename"; "read_csv"; "write_csv";
   "spiral"; "load_browser"; "scan_locations"; "filter_locations";
   "capture_location"; "find_images"; "banner"; "modules"; "key"; "choice"]%string.

(** The names assigned in the body of [capture_location]. *)
Definition capture_locals : list string :=
  ["location"; "address"; "lat"; "lon"; "sanitized_name"; "base_name"; "p";
   "browser"; "context"; "page"; "index"; "screenshot_path"; "e"]%string.

(** Reading a name inside [capture_location]: a local, else a global, else
    [NameError] (no builtin has any of the names looked up here). *)
Definition load_name (name : string) : result unit :=
  if bool_decide (name ∈ capture_locals) then Ok tt
  else if bool_decide (name ∈ module_globals) then Ok tt
  else Raise NameError.

(** What the browser does during one call: each call returns or raises. *)
Record session : Type := {
  launch : result unit;           (* sync_playwright(), launch, new_context, new_page *)
  goto : result unit;             (* page.goto(..., timeout=100000) *)
  wait_canvas : result unit;      (* page.wait_for_selector('canvas') *)
  wait_image : result unit;       (* page.wait_for_selector('div[role="main"] img') *)
  click_image : result unit;      (* page.click(img_selector, timeout=10000) *)
  screenshot : result unit;       (* page.locator('canvas').screenshot(path=...) *)
  close : result unit             (* context.close(); browser.close() *)
}.

(** The characters that [sanitize] replaces: the angle brackets, the colon,
    the double quote, the two slashes, the bar, the question mark and the
    star. *)
Definition forbidden (c : ascii) : bool :=
  bool_decide (c ∈ ["<"; ">"; ":"; ascii_of_nat 34; "/"; "\"; "|"; "?"; "*"]%char).

(** [re.sub] of every such character by an underscore. *)
Fixpoint replace_forbidden (text : string) : string :=
  match text with
  | EmptyString => EmptyString
  | String c s => String (if forbidden c then "_"%char else c) (replace_forbidden s)
  end.

(** [s[:n]] *)
Fixpoint prefix_of (n : nat) (s : string) : string :=
  match n, s with
  | S n', String c s' => String c (prefix_of n' s')
  | _, _ => EmptyString
  end.

(** [sanitize(text, max_length=100)] *)
Definition sanitize (text : string) : string :=
  let cleaned := replace_forbidden text in
  strip (prefix_of 100 cleaned).

(** The loop [while os.path.exists(screenshot_path)], for at most [fuel]
    iterations. *)
Fixpoint free_screenshot_path (fuel : nat) (files : gset string)
  (base_name screenshot_path : string) (index : nat) : option string :=
  if bool_decide (screenshot_path ∈ files) then
    match fuel with
    | O => None
    | S fuel' =>
        free_screenshot_path fuel' files base_name
          ("buildings/" +:+ base_name +:+ "_" +:+ pretty index +:+ ".png")
          (index + 1)
    end
  else Some screenshot_path.

(** [capture_location(location)] with the files that exist before the call:
    what the call returns or raises, and the files that exist after it;
    [None] when the fuel of the path loop does not suffice. *)
Definition capture_location (fuel : nat) (b : session) (files : gset string)
  (location : list string) : option (result Z * gset string) :=
  match location with
  | [address; lat; lon] =>
      let sanitized_name := sanitize address in
      let base_name :=
        if String.eqb sanitized_name "" then "location_" +:+ lat +:+ "_" +:+ lon
        else sanitized_name in
      let before_screenshot : result unit :=
        _ ← launch b;
        _ ← goto b;
        _ ← wait_canvas b;
        _ ← wait_image b;
        _ ← load_name "img_selector";
        click_image b in
      (* [except KeyboardInterrupt as e: print(...); return 0] *)
      let handler (e : exn) : result Z := Ok 0%Z in
      match before_screenshot with
      | Raise e => Some (try_except (Raise e) [KeyboardInterrupt] handler, files)
      | Ok _ =>
          match free_screenshot_path fuel files base_name
                  ("buildings/" +:+ base_name +:+ ".png") 1 with
          | None => None
          | Some screenshot_path =>
              match screenshot b with
              | Raise e =>
                  Some (try_except (Raise e) [KeyboardInterrupt] handler, files)
              | Ok _ =>
                  Some (try_except (_ ← close b; Ok 1%Z) [KeyboardInterrupt] handler,
                        files ∪ {[screenshot_path]})
              end
          end
      end
  | _ => Some (Raise ValueError, files)   (* address, lat, lon = location *)
  end.

(** [future.result()]: the value the call returned, or its exception,
    raised again in [find_images]. *)
Definition future_result (outcome : result Z) : result Z := outcome.

(** The loop [for future in concurrent.futures.as_completed(futures)] over
    the outcomes of the calls in the order they complete. *)
Fixpoint count_successes (completed : list (result Z)) (success_count : nat)
  : result nat :=
  match completed with
  | [] => Ok success_count
  | outcome :: rest =>
      r ← future_result outcome;
      count_successes rest (if Z.eqb r 0 then success_count else S success_count)
  end.

(** The calls of [capture_location] that [find_images] submits, taken in the
    order in which they complete, each with its own browser. *)
Fixpoint run_calls (fuel : nat) (calls : list (session * list string))
  (files : gset string) : option (list (result Z) * gset string) :=
  match calls with
  | [] => Some ([], files)
  | (b, location) :: rest =>
      '(outcome, files) ← capture_location fuel b files location;
      '(outcomes, files) ← run_calls fuel rest files;
      Some (outcome :: outcomes, files)
  end.

(** [find_images()] from the rows of the chosen file on: the value of
    [success_count], or the exception that ends the function, and the files
    that exist afterwards. *)
Definition find_images (fuel : nat) (calls : list (session * list string))
  (files : gset string) : option (result nat * gset string) :=
  '(outcomes, files) ← run_calls fuel calls files;
  Some (count_successes outcomes 0, files).

(** A browser in which every call returns. *)
Definition obliging : session :=
  {| launch := Ok tt; goto := Ok tt; wait_canvas := Ok tt; wait_image := Ok tt;
     click_image := Ok tt; screenshot := Ok tt; close := Ok tt |}.

(** A browser whose [page.goto] times out. *)
Definition unreachable : session :=
  {| launch := Ok tt; goto := Raise PlaywrightTimeoutError; wait_canvas := Ok tt;
     wait_image := Ok tt; click_image := Ok tt; screenshot := Ok tt;
     close := Ok tt |}.

Definition main_st : list string := ["Main St 1"; "50.45"; "30.52"]%string.

Lemma capture_location_never_1 fuel b files location :
  exists r, capture_location fuel b files location = Some (r, files) /\
            r <> Ok 1%Z.
Proof.
  unfold capture_location.
  destruct location as [|address [|lat [|lon [|? ?]]]];
    try (eexists; split; [reflexivity|discriminate]).
  destruct (launch b) as [[]|e1]; cbn [mbind result_bind];
    [|eexists; split; [reflexivity|];
      unfold try_except; case_bool_decide; discriminate].
  destruct (goto b) as [[]|e2]; cbn [mbind result_bind];
    [|eexists; split; [reflexivity|];
      unfold try_except; case_bool_decide; discriminate].
  destruct (wait_canvas b) as [[]|e3]; cbn [mbind result_bind];
    [|eexists; split; [reflexivity|];
      unfold try_except; case_bool_decide; discriminate].
  destruct (wait_image b) as [[]|e4]; cbn [mbind result_bind];
    [|eexists; split; [reflexivity|];
      unfold try_except; case_bool_decide; discriminate].
  change (load_name "img_selector") with (@Raise unit NameError).
  cbn [mbind result_bind].
  eexists; split; [reflexivity|discriminate].
Qed.

(** C3 fails on the code: [img_selector] is bound nowhere, so a call whose
    browser obliges at every step raises [NameError] at [page.click]; the
    handler is for [KeyboardInterrupt] alone, so the error, like a timeout
    of [page.goto], leaves [capture_location] and is raised again by
    [future.result()] in [find_images].  No call returns 1 and no call
    adds a file. *)
Theorem capture_location_raises (fuel : nat) (b : session) (files : gset string)
  (location : list string) :
  capture_location fuel obliging files main_st = Some (Raise NameError, files) /\
  find_images fuel [(obliging, main_st)] files = Some (Raise NameError, files) /\
  capture_location fuel unreachable files main_st
  = Some (Raise PlaywrightTimeoutError, files) /\
  exists r, capture_location fuel b files location = Some (r, files) /\
            r <> Ok 1%Z.
Proof.
  split; [reflexivity|]. split; [reflexivity|]. split; [reflexivity|].
  apply capture_location_never_1.
Qed.

End Capture.

(** ** Scan mode: one cell of the spiral in [scan_locations] *)

Module Scan.

Import Py.

(** [s.split(sep)] for a non-empty separator; [cur] holds the current field
    in reverse, [skip] the characters of a separator still to pass. *)
Fixpoint split_go (sep : string) (skip : nat) (cur : string) (s : string)
  : list string :=
  match s with
  | EmptyString => [String.rev cur]
  | String c s' =>
      match skip with
      | S k => split_go sep k cur s'
      | O =>
          if String.prefix sep s
          then String.rev cur :: split_go sep (String.length sep - 1) "" s'
          else split_go sep 0 (String c cur) s'
      end
  end.

Definition split (sep s : string) : list string := split_go sep 0 "" s.

Example split_coords : split ", " "50.45, 30.52" = ["50.45"; "30.52"]%string.
Proof. reflexivity. Qed.

(** [s[1:]] *)
Definition drop_first (s : string) : string :=
  match s with
  | EmptyString => EmptyString
  | String _ s' => s'
  end.

(** [max_retries = 3] *)
Definition max_retries : nat := 3.

(** What the page answers while one cell is scanned.  A call on an element
    that [query_selector] did not find raises [AttributeError]; the calls
    inside the retry loop are indexed by the value of [attempt]. *)
Record cell_page : Type := {
  right_click : nat -> result unit;       (* page.mouse.click(x, y, button='right') *)
  cursor_pointer : nat -> result bool;    (* div[role="application"], cursor == "pointer" *)
  click_away : nat -> result unit;        (* page.mouse.click on the corner, pointer case *)
  coords_text : nat -> result string;     (* div[data-index="0"] .text_content() *)
  menu_click : nat -> result unit;        (* div[data-index="4"] .click() *)
  reload : nat -> result unit;            (* load_browser(...) in the handler *)
  modal_address : result string;          (* the button of the modal dialog *)
  main_visible : result bool;             (* div[role="main"] .is_visible() *)
  main_address : result string;           (* button[data-item-id="address"] *)
  reload_main : result unit;              (* load_browser(...) after the side panel *)
  click_corner : result unit              (* page.mouse.click on the corner, before the row *)
}.

(** What one cell leaves behind: the attempts, the messages of the handler,
    the calls of [load_browser] and the rows given to [writer.writerow]. *)
Inductive event : Type :=
| Attempt (n : nat)
| Interaction_error (n : nat)
| Reload
| Fatal_error
| Write_row (r : list string).

(** [except (PlaywrightTimeoutError, AttributeError)] *)
Definition caught : list exn := [PlaywrightTimeoutError; AttributeError].

(** How the body of the [try] inside the retry loop ends when it does not
    raise. *)
Inductive body_exit : Type :=
| Break          (* the cursor is a pointer: [success = False; break] *)
| Succeeded.     (* [success = True] *)

(** The body of the [try]: the value of [coords] after it, and its exit. *)
Definition try_body (p : cell_page) (attempt : nat) (coords : option (list string))
  : option (list string) * result body_exit :=
  match right_click p attempt with
  | Raise e => (coords, Raise e)
  | Ok _ =>
      match cursor_pointer p attempt with
      | Raise e => (coords, Raise e)
      | Ok true =>
          match click_away p attempt with
          | Raise e => (coords, Raise e)
          | Ok _ => (coords, Ok Break)
          end
      | Ok false =>
          match coords_text p attempt with
          | Raise e => (coords, Raise e)
          | Ok text =>
              let coords := Some (split ", " text) in
              match menu_click p attempt with
              | Raise e => (coords, Raise e)
              | Ok _ => (coords, Ok Succeeded)
              end
          end
      end
  end.

Definition prepend {A : Type} (tr : list event) (r : option (list event * A))
  : option (list event * A) :=
  match r with
  | Some (tr', a) => Some (tr ++ tr', a)
  | None => None
  end.

(** The loop [while attempt < max_retries and not success], for at most
    [fuel] passes: its events, and [success] and [coords] at its end or the
    exception that leaves it. *)
Fixpoint retry_loop (p : cell_page) (fuel attempt : nat) (success : bool)
  (coords : option (list string))
  : option (list event * result (bool * option (list string))) :=
  if (attempt <? max_retries)%nat && negb success then
    match fuel with
    | O => None
    | S fuel' =>
        match try_body p attempt coords with
        | (coords, Ok Break) => Some ([Attempt attempt], Ok (false, coords))
        | (coords, Ok Succeeded) =>
            prepend [Attempt attempt] (retry_loop p fuel' attempt true coords)
        | (coords, Raise e) =>
            if bool_decide (e ∈ caught) then
              let attempt' := (attempt + 1)%nat in
              match reload p attempt with
              | Raise e' =>
                  Some ([Attempt attempt; Interaction_error attempt; Reload], Raise e')
              | Ok _ =>
                  prepend
                    ([Attempt attempt; Interaction_error attempt; Reload] ++
                     (if (attempt' =? max_retries)%nat then [Fatal_error] else []))
                    (retry_loop p fuel' attempt' success coords)
              end
            else Some ([Attempt attempt], Raise e)
        end
    end
  else Some ([], Ok (success, coords)).

(** The two [try] blocks that look for the address, from [address = None]:
    the events, and the value of [address] or the exception that leaves
    them. *)
Definition find_address (p : cell_page) : list event * result (option string) :=
  match try_except (Some <$> modal_address p) caught (fun _ => Ok None) with
  | Raise e => ([], Raise e)
  | Ok address =>
      match main_visible p with
      | Raise e => ([], try_except (Raise e) caught (fun _ => Ok address))
      | Ok false => ([], Ok address)
      | Ok true =>
          match try_except (Some <$> (drop_first <$> main_address p)) caught
                  (fun _ => Ok address) with
          | Raise e => ([], try_except (Raise e) caught (fun _ => Ok address))
          | Ok address =>
              ([Reload],
               try_except (_ ← reload_main p; Ok address) caught (fun _ => Ok address))
          end
      end
  end.

(** [not address] *)
Definition falsy (address : option string) : bool :=
  match address with
  | None => true
  | Some a => String.eqb a ""
  end.

(** From [if not address] to [writer.writerow([address, coords[0], coords[1]])]. *)
Definition write_row (p : cell_page) (address : option string)
  (coords : option (list string)) : list event * result unit :=
  match address with
  | Some a =>
      if falsy address then ([], Ok tt)
      else
        match click_corner p with
        | Raise e => ([], Raise e)
        | Ok _ =>
            match coords with
            | None => ([], Raise OtherError)
            | Some c =>
                match c !! 0%nat, c !! 1%nat with
                | Some c0, Some c1 => ([Write_row [a; c0; c1]], Ok tt)
                | _, _ => ([], Raise IndexError)
                end
            end
        end
  | None => ([], Ok tt)
  end.

(** The body of [for x, y in spiral(...)] for one cell: its events, and
    whether the loop goes on to the next cell ([Ok]) or an exception leaves
    [scan_locations]. *)
Definition scan_cell (p : cell_page) : option (list event * result unit) :=
  match retry_loop p max_retries 0 false None with
  | None => None
  | Some (tr, Raise e) => Some (tr, Raise e)
  | Some (tr, Ok (false, _)) => Some (tr, Ok tt)
  | Some (tr, Ok (true, coords)) =>
      match find_address p with
      | (tr1, Raise e) => Some (tr ++ tr1, Raise e)
      | (tr1, Ok address) =>
          let '(tr2, r) := write_row p address coords in
          Some (tr ++ tr1 ++ tr2, r)
      end
  end.

(** The attempts made, and the rows written, in a list of events. *)
Fixpoint attempts_made (tr : list event) : nat :=
  match tr with
  | [] => 0
  | Attempt _ :: tr' => S (attempts_made tr')
  | _ :: tr' => attempts_made tr'
  end.

Fixpoint rows_written (tr : list event) : list (list string) :=
  match tr with
  | [] => []
  | Write_row r :: tr' => r :: rows_written tr'
  | _ :: tr' => rows_written tr'
  end.

(** Every [Interaction_error] is followed at once by [Reload]. *)
Fixpoint errors_reloaded (tr : list event) : bool :=
  match tr with
  | [] => true
  | Interaction_error _ :: tr' =>
      match tr' with
      | Reload :: _ => errors_reloaded tr'
      | _ => false
      end
  | _ :: tr' => errors_reloaded tr'
  end.

(** The third failure of the cell was reported. *)
Definition failed_thrice (tr : list event) : bool :=
  existsb (fun ev => match ev with Interaction_error 2 => true | _ => false end) tr.

(** *** Events of the retry loop *)

Lemma attempts_made_app tr1 tr2 :
  attempts_made (tr1 ++ tr2) = (attempts_made tr1 + attempts_made tr2)%nat.
Proof.
  induction tr1 as [|[] tr1 IH]; simpl; rewrite ?IH; reflexivity.
Qed.

Lemma rows_written_app tr1 tr2 :
  rows_written (tr1 ++ tr2) = rows_written tr1 ++ rows_written tr2.
Proof.
  induction tr1 as [|[] tr1 IH]; simpl; rewrite ?IH; reflexivity.
Qed.

Lemma errors_reloaded_app tr1 tr2 :
  errors_reloaded tr1 = true -> errors_reloaded tr2 = true ->
  errors_reloaded (tr1 ++ tr2) = true.
Proof.
  induction tr1 as [|ev tr1 IH]; intros H1 H2; [exact H2|].
  destruct ev; simpl in *; auto.
  destruct tr1 as [|[] tr1]; try discriminate. simpl in *. auto.
Qed.

Lemma retry_loop_success p fuel attempt coords :
  retry_loop p fuel attempt true coords = Some ([], Ok (true, coords)).
Proof. destruct fuel; simpl; rewrite andb_false_r; reflexivity. Qed.

Lemma retry_loop_exhausted p fuel success coords :
  retry_loop p fuel max_retries success coords = Some ([], Ok (success, coords)).
Proof. destruct fuel; reflexivity. Qed.

Lemma retry_loop_events p fuel attempt success coords :
  (max_retries - attempt <= fuel)%nat ->
  exists tr r,
    retry_loop p fuel attempt success coords = Some (tr, r) /\
    (attempts_made tr <= max_retries - attempt)%nat /\
    rows_written tr = [] /\
    errors_reloaded tr = true /\
    (success = false -> failed_thrice tr = true ->
     (forall c, r <> Ok (true, c)) /\
     (reload p 2 = Ok tt -> exists c, r = Ok (false, c))).
Proof.
  revert attempt success coords.
  induction fuel as [|fuel IH]; intros attempt success coords Hfuel.
  { exists [], (Ok (success, coords)). simpl.
    replace (attempt <? max_retries)%nat with false
      by (symmetry; apply Nat.ltb_ge; lia).
    repeat split; auto; try lia; intros; discriminate. }
  cbn [retry_loop].
  destruct ((attempt <? max_retries)%nat && negb success) eqn:Hguard.
  2:{ exists [], (Ok (success, coords)).
      repeat split; auto; simpl; try lia; intros; discriminate. }
  apply andb_true_iff in Hguard as [Hlt Hsucc].
  apply Nat.ltb_lt in Hlt. apply negb_true_iff in Hsucc. subst success.
  unfold max_retries in Hlt.
  destruct (try_body p attempt coords) as [coords' [[]|e]].
  - eexists _, _. split; [reflexivity|].
    destruct attempt as [|[|[|attempt]]]; [| | |lia];
      repeat split; auto; simpl; try lia; intros; discriminate.
  - rewrite retry_loop_success. eexists _, _. split; [reflexivity|].
    destruct attempt as [|[|[|attempt]]]; [| | |lia];
      repeat split; auto; simpl; try lia; intros; discriminate.
  - case_bool_decide.
    2:{ eexists _, _. split; [reflexivity|].
        destruct attempt as [|[|[|attempt]]]; [| | |lia];
          repeat split; auto; simpl; try lia; intros; discriminate. }
    destruct (reload p attempt) as [[]|e'] eqn:Hreload.
    2:{ eexists _, _. split; [reflexivity|].
        destruct attempt as [|[|[|attempt]]]; [| | |lia];
          repeat split; auto; simpl; try lia; try (intros; discriminate).
        intros; congruence. }
    destruct (IH (attempt + 1)%nat false coords' ltac:(lia))
      as (tr & r & Hrun & Hatt & Hrows & Herr & Hthird).
    rewrite Hrun. eexists _, _. split; [reflexivity|].
    destruct attempt as [|[|[|attempt]]]; [| | |lia]; simpl in *.
    1-2: repeat split; auto; try lia; intros; apply Hthird; auto.
    change 3%nat with max_retries in Hrun.
    rewrite retry_loop_exhausted in Hrun. injection Hrun as <- <-.
    repeat split; auto; try discriminate; eauto.
Qed.

Lemma failed_thrice_app tr1 tr2 :
  failed_thrice (tr1 ++ tr2) = failed_thrice tr1 || failed_thrice tr2.
Proof. apply existsb_app. Qed.

Lemma find_address_events p :
  fst (find_address p) = [] \/ fst (find_address p) = [Reload].
Proof.
  unfold find_address.
  destruct (try_except _ caught _) as [address|e]; [|auto].
  destruct (main_visible p) as [[]|e]; auto.
  destruct (try_except _ caught _) as [address'|e]; auto.
Qed.

Lemma write_row_events p address coords :
  fst (write_row p address coords) = [] \/
  exists a c0 c1,
    write_row p address coords = ([Write_row [a; c0; c1]], Ok tt).
Proof.
  unfold write_row. destruct address as [a|]; [|auto].
  destruct (falsy (Some a)); [auto|].
  destruct (click_corner p); [|auto].
  destruct coords as [c|]; [|auto]. simpl.
  destruct (c !! 0%nat) as [c0|] eqn:H0; [|auto].
  destruct (c !! 1%nat) as [c1|] eqn:H1; [|auto].
  right. exists a, c0, c1. auto.
Qed.


(** A page on which the context menu is missing at the first attempt and
    the cell resolves at the second. *)
Definition flaky : cell_page :=
  {| right_click := fun _ => Ok tt;
     cursor_pointer := fun _ => Ok false;
     click_away := fun _ => Ok tt;
     coords_text := fun n => match n with
                             | O => Raise AttributeError
                             | _ => Ok "50.45, 30.52"%string
                             end;
     menu_click := fun _ => Ok tt;
     reload := fun _ => Ok tt;
     modal_address := Ok "Main St 1"%string;
     main_visible := Ok false;
     main_address := Raise AttributeError;
     reload_main := Ok tt;
     click_corner := Ok tt |}.

(** A page on which every attempt times out. *)
Definition dead : cell_page :=
  {| right_click := fun _ => Raise PlaywrightTimeoutError;
     cursor_pointer := fun _ => Ok false;
     click_away := fun _ => Ok tt;
     coords_text := fun _ => Ok "50.45, 30.52"%string;
     menu_click := fun _ => Ok tt;
     reload := fun _ => Ok tt;
     modal_address := Ok "Main St 1"%string;
     main_visible := Ok false;
     main_address := Raise AttributeError;
     reload_main := Ok tt;
     click_corner := Ok tt |}.

Example scan_cell_flaky :
  scan_cell flaky
  = Some ([Attempt 0; Interaction_error 0; Reload; Attempt 1;
           Write_row ["Main St 1"; "50.45"; "30.52"]%string], Ok tt).
Proof. reflexivity. Qed.

Example scan_cell_dead :
  scan_cell dead
  = Some ([Attempt 0; Interaction_error 0; Reload;
           Attempt 1; Interaction_error 1; Reload;
           Attempt 2; Interaction_error 2; Reload; Fatal_error], Ok tt).
Proof. reflexivity. Qed.


End Scan.

(** ** Filter mode, continued: Intersect, Unique and how the commands fit *)

Module FilterAlgebra.

Import Py Filter.

Section Commands.

Variable iter : gset row -> list row.
Hypothesis iter_elements : forall X, iter X ≡ₚ elements X.


(** The output of Union splits into three sets that do not overlap: the two
    Differences and the Intersect. *)
Theorem union_is_differences_and_intersect (file1 file2 : csv_file) :
  exists U I D12 D21 : gset row,
    set_result iter Union file1 file2 = Ok U /\
    set_result iter Intersect file1 file2 = Ok I /\
    set_result iter Difference file1 file2 = Ok D12 /\
    set_result iter Difference file2 file1 = Ok D21 /\
    U = D12 ∪ D21 ∪ I /\
    D12 ## D21 /\ D12 ## I /\ D21 ## I.
Proof.
  destruct (set_result_spec iter iter_elements Union file1 file2) as (U & HU & HinU).
  destruct (set_result_spec iter iter_elements Intersect file1 file2) as (I & HI & HinI).
  destruct (set_result_spec iter iter_elements Difference file1 file2)
    as (D12 & HD12 & Hin12).
  destruct (set_result_spec iter iter_elements Difference file2 file1)
    as (D21 & HD21 & Hin21).
  exists U, I, D12, D21. repeat (split; [assumption|]).
  assert (forall (f : csv_file) r,
            (exists r', r' ∈ f /\ key r' = key r) \/
            ~ (exists r', r' ∈ f /\ key r' = key r)) as Hdec.
  { intros f r.
    destruct (decide (Exists (fun r' => key r' = key r) f)) as [H|H];
      rewrite Exists_exists in H; auto. }
  split; [|split; [|split]].
  - apply set_eq. intros r.
    rewrite !elem_of_union, HinU, HinI, Hin12, Hin21. split.
    + intros (Hne & Hr).
      destruct (Hdec file1 r) as [H1|H1], (Hdec file2 r) as [H2|H2].
      * right. tauto.
      * left. left. destruct Hr as [Hr|Hr].
        -- split; [done|]. split; [done|]. intros r2 Hr2 Hk. apply H2. eauto.
        -- exfalso. apply H2. eauto.
      * left. right. destruct Hr as [Hr|Hr].
        -- exfalso. apply H1. eauto.
        -- split; [done|]. split; [done|]. intros r1 Hr1 Hk. apply H1. eauto.
      * exfalso. destruct Hr as [Hr|Hr]; [apply H1|apply H2]; eauto.
    + intros [[H|H]|H]; tauto.
  - intros r H1 H2. apply Hin12 in H1 as (_ & Hr1 & Hno).
    apply Hin21 in H2 as (_ & Hr2 & _). exact (Hno r Hr2 eq_refl).
  - intros r H1 H2. apply Hin12 in H1 as (_ & _ & Hno).
    apply HinI in H2 as (_ & _ & _ & r2 & Hr2 & Hk). exact (Hno r2 Hr2 Hk).
  - intros r H1 H2. apply Hin21 in H1 as (_ & _ & Hno).
    apply HinI in H2 as (_ & _ & (r1 & Hr1 & Hk) & _). exact (Hno r1 Hr1 Hk).
Qed.

(** The rows that the loop of the Unique command appends to [result]: the
    first row of each address key not yet in [seen_addresses]. *)
Fixpoint kept (l : list row) (seen_addresses : gset string) : list row :=
  match l with
  | [] => []
  | r :: l' =>
      match key r with
      | None => kept l' seen_addresses
      | Some address =>
          if bool_decide (address ∉ seen_addresses)
          then r :: kept l' (seen_addresses ∪ {[address]})
          else kept l' seen_addresses
      end
  end.

Lemma unique_loop_kept l seen result :
  exists seen', unique_loop l seen result = Ok (seen', result ++ kept l seen).
Proof.
  revert seen result; induction l as [|r l IH]; intros seen result.
  { exists seen. simpl. rewrite app_nil_r. reflexivity. }
  cbn [unique_loop kept]. destruct r as [|a r]; simpl.
  - apply IH.
  - destruct (bool_decide (lower (strip a) ∉ seen)).
    + edestruct IH as (seen' & Heq). exists seen'. rewrite Heq.
      rewrite <- app_assoc. reflexivity.
    + apply IH.
Qed.

Lemma kept_sublist l seen : sublist (kept l seen) l.
Proof.
  revert seen; induction l as [|r l IH]; intros seen; simpl; [constructor|].
  destruct (key r) as [a|]; [|constructor; apply IH].
  destruct (bool_decide (a ∉ seen)); constructor; apply IH.
Qed.

Lemma kept_keys l seen r :
  r ∈ kept l seen -> exists a, key r = Some a /\ a ∉ seen.
Proof.
  revert seen; induction l as [|r0 l IH]; intros seen; simpl; [inversion 1|].
  destruct (key r0) as [a|] eqn:Hk; [|apply IH].
  case_bool_decide as Ha; [|apply IH].
  intros [->|Hin]%elem_of_cons; [eauto|].
  apply IH in Hin as (a' & Hk' & Hn). exists a'. split; [done|]. set_solver.
Qed.

Lemma kept_NoDup l seen : NoDup (omap key (kept l seen)).
Proof.
  revert seen; induction l as [|r l IH]; intros seen; simpl; [constructor|].
  destruct (key r) as [a|] eqn:Hk; [|apply IH].
  case_bool_decide as Ha; [|apply IH].
  cbn [omap list_omap]. rewrite Hk. apply NoDup_cons. split; [|apply IH].
  intros Hin. apply list_elem_of_omap in Hin as (r' & Hr' & Hk').
  apply kept_keys in Hr' as (a' & Hk'' & Hn). set_solver.
Qed.

Lemma kept_covers l seen r a :
  r ∈ l -> key r = Some a ->
  a ∈ seen \/ exists r', r' ∈ kept l seen /\ key r' = Some a.
Proof.
  revert seen; induction l as [|r0 l IH]; intros seen; [inversion 1|].
  intros [->|Hin]%elem_of_cons Hk; simpl.
  - rewrite Hk. case_bool_decide as Ha.
    + right. exists r0. split; [left|done].
    + left. exact Ha.
  - destruct (key r0) as [a0|] eqn:Hk0; [|apply IH; done].
    case_bool_decide as Ha.
    + destruct (IH (seen ∪ {[a0]}) Hin Hk) as [Hs|(r' & Hr' & Hk')].
      * apply elem_of_union in Hs as [Hs|Hs]; [left; done|].
        apply elem_of_singleton in Hs as ->.
        right. exists r0. split; [left|done].
      * right. exists r'. split; [right|]; done.
    + apply IH; done.
Qed.

Lemma kept_distinct l seen :
  (forall r, r ∈ l -> exists a, key r = Some a /\ a ∉ seen) ->
  NoDup (omap key l) ->
  kept l seen = l.
Proof.
  revert seen; induction l as [|r l IH]; intros seen Hall Hnd; [reflexivity|].
  simpl. destruct (Hall r ltac:(left)) as (a & Hk & Ha).
  cbn [omap list_omap] in Hnd. rewrite Hk in *.
  apply NoDup_cons in Hnd as [Hnotin Hnd].
  rewrite bool_decide_eq_true_2 by done. f_equal. apply IH; [|exact Hnd].
  intros r' Hr'. destruct (Hall r' ltac:(right; done)) as (a' & Hk' & Ha').
  exists a'. split; [done|].
  intros [Hs|Hs%elem_of_singleton]%elem_of_union; [done|]. subst a'.
  apply Hnotin. apply list_elem_of_omap. eauto.
Qed.


End Commands.



Lemma union_is_differences_and_intersect_witness :
  exists U I D12 D21 : gset row,
    set_result elements Union file_a file_b = Ok U /\
    set_result elements Intersect file_a file_b = Ok I /\
    set_result elements Difference file_a file_b = Ok D12 /\
    set_result elements Difference file_b file_a = Ok D21 /\
    U = D12 ∪ D21 ∪ I /\
    D12 ## D21 /\ D12 ## I /\ D21 ## I.
Proof. apply union_is_differences_and_intersect. intros X. reflexivity. Defined.

(** Intersect keeps both spellings of one address. *)
Example intersect_a_b :
  set_result elements Intersect file_a file_b
  = Ok {[ ["Ash Rd 7"; "50.2"; "30.2"]%string; ["ash rd 7 "; "50.2"; "30.2"]%string ]}.
Proof. vm_compute. reflexivity. Qed.

End FilterAlgebra.

(** ** The zoom level, continued: its range and where it is monotone *)

Module ZoomRange.

Import Zoom.

Local Open Scope R_scope.

Lemma round_bounds (x : R) : (Zfloor x <= round x <= Zfloor x + 1)%Z.
Proof.
  unfold round.
  destruct (Rlt_dec (x - IZR (Zfloor x)) (1 / 2)); [lia|].
  destruct (Rlt_dec (1 / 2) (x - IZR (Zfloor x))); [lia|].
  destruct (Z.even (Zfloor x)); lia.
Qed.

(** [round] never inverts the order of two numbers. *)
Lemma round_mono (x y : R) : x <= y -> (round x <= round y)%Z.
Proof.
  intros Hxy. pose proof (Zfloor_le x y Hxy) as Hfl.
  pose proof (round_bounds x) as Hx. pose proof (round_bounds y) as Hy.
  destruct (Z.eq_dec (Zfloor x) (Zfloor y)) as [Heq|Hne]; [|lia].
  unfold round in *. rewrite <- Heq in *.
  destruct (Rlt_dec (x - IZR (Zfloor x)) (1 / 2)) as [Hx1|Hx1]; [lia|].
  destruct (Rlt_dec (y - IZR (Zfloor x)) (1 / 2)) as [Hy1|Hy1]; [lra|].
  destruct (Rlt_dec (1 / 2) (y - IZR (Zfloor x))) as [Hy2|Hy2].
  { destruct (Rlt_dec (1 / 2) (x - IZR (Zfloor x))); [lia|].
    destruct (Z.even (Zfloor x)); lia. }
  destruct (Rlt_dec (1 / 2) (x - IZR (Zfloor x))) as [Hx2|Hx2]; [lra|].
  lia.
Qed.

Lemma ln_le (x y : R) : 0 < x -> x <= y -> ln x <= ln y.
Proof.
  intros Hx [Hlt| ->]; [|lra]. left. apply ln_increasing; assumption.
Qed.

Lemma log2_le (x y : R) : 0 < x -> x <= y -> log2 x <= log2 y.
Proof.
  intros Hx Hxy. unfold log2. pose proof ln_2_pos.
  apply Rmult_le_compat_r; [left; apply Rinv_0_lt_compat; assumption|].
  apply ln_le; assumption.
Qed.

Lemma log2_pos (x : R) : 1 < x -> 0 < log2 x.
Proof.
  intros Hx. unfold log2. apply Rdiv_lt_0_compat; [|apply ln_2_pos].
  rewrite <- ln_1. apply ln_increasing; lra.
Qed.

(** [log2 x < n / 2] when [x * x < 2 ^ n]. *)
Lemma log2_below (x : R) (n : nat) :
  0 < x -> x * x < 2 ^ n -> log2 x < INR n / 2.
Proof.
  intros Hx Hsq. unfold log2. pose proof ln_2_pos as Hln2.
  assert (ln x + ln x < INR n * ln 2) as Hlt.
  { rewrite <- ln_mult, <- ln_pow by lra. apply ln_increasing; [nra|lra]. }
  apply (Rmult_lt_reg_r (ln 2)); [assumption|].
  unfold Rdiv at 1. rewrite Rmult_assoc, Rinv_l by lra. lra.
Qed.

(** [n / 2 < log2 x] when [2 ^ n < x * x]. *)
Lemma log2_above (x : R) (n : nat) :
  0 < x -> 2 ^ n < x * x -> INR n / 2 < log2 x.
Proof.
  intros Hx Hsq. unfold log2. pose proof ln_2_pos as Hln2.
  assert (INR n * ln 2 < ln x + ln x) as Hlt.
  { rewrite <- ln_mult, <- ln_pow by lra. apply ln_increasing; [|lra].
    apply pow_lt. lra. }
  apply (Rmult_lt_reg_r (ln 2)); [assumption|].
  unfold Rdiv at 2. rewrite Rmult_assoc, Rinv_l by lra. lra.
Qed.

Lemma compute_zoom_at_most_21 (kilometers : R) :
  (compute_zoom kilometers <= 21)%Z.
Proof.
  unfold compute_zoom. cbv zeta.
  destruct (Rle_dec (kilometers * 1000) 71) as [Hlow|Hlow]; [lia|].
  destruct (Rle_dec 1164888 (kilometers * 1000)) as [Hhigh|Hhigh]; [lia|].
  set (meters := kilometers * 1000) in *.
  assert (0 < 1165116 / meters) as Hpos by (apply Rdiv_lt_0_compat; lra).
  assert (1165116 / meters < 16411) as Hup.
  { apply (Rmult_lt_reg_r meters); [lra|].
    unfold Rdiv. rewrite Rmult_assoc, Rinv_l by lra. lra. }
  pose proof (log2_below (1165116 / meters) 29 Hpos) as Hlog1.
  assert (INR 29 = 29) as H29 by (simpl; lra). rewrite H29 in Hlog1.
  specialize (Hlog1 ltac:(nra)).
  set (e := log2 (1165116 / meters)) in *.
  pose proof (round_mono (6 + e) (20 + 1 / 2) ltac:(lra)) as Hle.
  assert (round (20 + 1 / 2) = 20%Z) as H20.
  { unfold round. rewrite (Zfloor_eq 20) by lra.
    destruct (Rlt_dec (20 + 1 / 2 - 20) (1 / 2)); [lra|].
    destruct (Rlt_dec (1 / 2) (20 + 1 / 2 - 20)); [lra|]. reflexivity. }
  lia.
Qed.

(** Whatever the radius, the zoom lies between 6 and 21; it is at least 7
    for every radius up to 823 km. *)
Theorem compute_zoom_range (kilometers : R) :
  (6 <= compute_zoom kilometers <= 21)%Z /\
  (kilometers <= 823 -> (7 <= compute_zoom kilometers)%Z).
Proof.
  unfold compute_zoom. cbv zeta.
  destruct (Rle_dec (kilometers * 1000) 71) as [Hlow|Hlow]; [lia|].
  destruct (Rle_dec 1164888 (kilometers * 1000)) as [Hhigh|Hhigh]; [split; [lia|lra]|].
  set (meters := kilometers * 1000) in *.
  assert (0 < 1165116 / meters) as Hpos by (apply Rdiv_lt_0_compat; lra).
  assert (1 < 1165116 / meters) as Hone.
  { apply (Rmult_lt_reg_r meters); [lra|].
    unfold Rdiv. rewrite Rmult_assoc, Rinv_l by lra. lra. }
  assert (1165116 / meters < 16411) as Hup.
  { apply (Rmult_lt_reg_r meters); [lra|].
    unfold Rdiv. rewrite Rmult_assoc, Rinv_l by lra. lra. }
  pose proof (log2_pos _ Hone) as Hlog0.
  pose proof (log2_below (1165116 / meters) 29 Hpos) as Hlog1.
  assert (INR 29 = 29) as H29 by (simpl; lra). rewrite H29 in Hlog1.
  specialize (Hlog1 ltac:(nra)).
  set (e := log2 (1165116 / meters)) in *.
  pose proof (round_mono 6 (6 + e) ltac:(lra)) as Hge.
  pose proof (round_mono (6 + e) (20 + 1 / 2) ltac:(lra)) as Hle.
  assert (round 6 = 6%Z) as H6 by (apply round_below_half; lra).
  assert (round (20 + 1 / 2) = 20%Z) as H20.
  { unfold round. rewrite (Zfloor_eq 20) by lra.
    destruct (Rlt_dec (20 + 1 / 2 - 20) (1 / 2)); [lra|].
    destruct (Rlt_dec (1 / 2) (20 + 1 / 2 - 20)); [lra|]. reflexivity. }
  split; [lia|]. intros Hkm.
  assert (1415 / 1000 < 1165116 / meters) as Hbig.
  { apply (Rmult_lt_reg_r meters); [lra|].
    unfold Rdiv at 2. rewrite Rmult_assoc, Rinv_l by lra. unfold meters. lra. }
  pose proof (log2_above (1165116 / meters) 1 Hpos) as Hlog2.
  assert (INR 1 = 1) as H1 by (simpl; lra). rewrite H1 in Hlog2.
  specialize (Hlog2 ltac:(nra)). fold e in Hlog2.
  pose proof (round_bounds (6 + e)) as Hb.
  assert (6 <= Zfloor (6 + e))%Z as Hfl by (apply Zfloor_lub; lra).
  destruct (Z.eq_dec (Zfloor (6 + e)) 6%Z) as [Heq|Hne]; [|lia].
  unfold round in *. rewrite Heq in *.
  destruct (Rlt_dec (6 + e - 6) (1 / 2)); [lra|].
  destruct (Rlt_dec (1 / 2) (6 + e - 6)); [lia|lra].
Qed.



End ZoomRange.

(** ** [sanitize]: what a sanitized name looks like *)

Module SanitizeProps.

Import Py Capture.

(** Every character of [s] satisfies [P]. *)
Fixpoint all_chars (P : ascii -> bool) (s : string) : bool :=
  match s with
  | EmptyString => true
  | String c s' => P c && all_chars P s'
  end.

Definition allowed (c : ascii) : bool := negb (forbidden c).

Lemma forbidden_not_space c : forbidden c = true -> isspace c = false.
Proof.
  unfold forbidden. intros H. apply bool_decide_eq_true in H.
  repeat (apply elem_of_cons in H as [->|H]; [reflexivity|]). inversion H.
Qed.

Lemma replace_forbidden_allowed s : all_chars allowed (replace_forbidden s) = true.
Proof.
  induction s as [|c s IH]; simpl; [reflexivity|]. rewrite IH, andb_true_r.
  unfold allowed. destruct (forbidden c) eqn:Hc; [reflexivity|]. rewrite Hc. reflexivity.
Qed.

Lemma replace_forbidden_id s :
  all_chars allowed s = true -> replace_forbidden s = s.
Proof.
  induction s as [|c s IH]; simpl; [reflexivity|].
  intros [Hc Hs]%andb_true_iff. unfold allowed in Hc.
  apply negb_true_iff in Hc. rewrite Hc, IH by exact Hs. reflexivity.
Qed.

Lemma replace_forbidden_spaces s :
  all_chars isspace s = true -> all_chars isspace (replace_forbidden s) = true.
Proof.
  induction s as [|c s IH]; simpl; [reflexivity|].
  intros [Hc Hs]%andb_true_iff. rewrite IH, andb_true_r by exact Hs.
  destruct (forbidden c) eqn:Hf; [|exact Hc].
  apply forbidden_not_space in Hf. congruence.
Qed.

Lemma prefix_of_all P n s :
  all_chars P s = true -> all_chars P (prefix_of n s) = true.
Proof.
  revert s; induction n as [|n IH]; intros [|c s]; simpl; try reflexivity.
  intros [Hc Hs]%andb_true_iff. rewrite Hc, IH by exact Hs. reflexivity.
Qed.

Lemma prefix_of_length n s : (String.length (prefix_of n s) <= n)%nat.
Proof.
  revert s; induction n as [|n IH]; intros [|c s]; simpl; try lia.
  specialize (IH s). lia.
Qed.

Lemma prefix_of_id n s : (String.length s <= n)%nat -> prefix_of n s = s.
Proof.
  revert s; induction n as [|n IH]; intros [|c s]; simpl; try reflexivity; try lia.
  intros H. rewrite IH by lia. reflexivity.
Qed.

Lemma lstrip_all P s : all_chars P s = true -> all_chars P (lstrip s) = true.
Proof.
  induction s as [|c s IH]; simpl; [reflexivity|].
  intros H. destruct (isspace c); [|exact H].
  apply andb_true_iff in H as [_ H]. auto.
Qed.

Lemma rstrip_all P s : all_chars P s = true -> all_chars P (rstrip s) = true.
Proof.
  induction s as [|c s IH]; simpl; [reflexivity|].
  intros [Hc Hs]%andb_true_iff. specialize (IH Hs).
  destruct (rstrip s) as [|d r].
  - destruct (isspace c); simpl; [reflexivity|]. rewrite Hc. reflexivity.
  - cbn [all_chars] in *. rewrite Hc, IH. reflexivity.
Qed.

Lemma lstrip_length s : (String.length (lstrip s) <= String.length s)%nat.
Proof.
  induction s as [|c s IH]; simpl; [lia|]. destruct (isspace c); simpl; lia.
Qed.

Lemma rstrip_length s : (String.length (rstrip s) <= String.length s)%nat.
Proof.
  induction s as [|c s IH]; simpl; [lia|].
  destruct (rstrip s) as [|d r].
  - destruct (isspace c); simpl; lia.
  - simpl in *. lia.
Qed.

Lemma rstrip_idem s : rstrip (rstrip s) = rstrip s.
Proof.
  induction s as [|c s IH]; simpl; [reflexivity|].
  destruct (rstrip s) as [|d r] eqn:Hr.
  - destruct (isspace c) eqn:Hc; simpl; [reflexivity|]. rewrite Hc. reflexivity.
  - cbn [rstrip]. cbn [rstrip] in IH. rewrite IH. reflexivity.
Qed.

Lemma rstrip_spaces s : all_chars isspace s = true -> rstrip s = EmptyString.
Proof.
  induction s as [|c s IH]; simpl; [reflexivity|].
  intros [Hc Hs]%andb_true_iff. rewrite IH, Hc by exact Hs. reflexivity.
Qed.

Lemma lstrip_spaces s : all_chars isspace s = true -> lstrip s = EmptyString.
Proof.
  induction s as [|c s IH]; simpl; [reflexivity|].
  intros [Hc Hs]%andb_true_iff. rewrite Hc. auto.
Qed.

Lemma lstrip_rstrip_lstrip s : lstrip (rstrip (lstrip s)) = rstrip (lstrip s).
Proof.
  induction s as [|c s IH]; simpl; [reflexivity|].
  destruct (isspace c) eqn:Hc; [exact IH|].
  cbn [rstrip]. destruct (rstrip s) as [|d r]; [rewrite Hc|]; simpl;
    rewrite Hc; reflexivity.
Qed.

Lemma strip_idem s : strip (strip s) = strip s.
Proof.
  unfold strip. rewrite lstrip_rstrip_lstrip. apply rstrip_idem.
Qed.



Example sanitize_sample :
  sanitize " Main St. 1/2: <annex> " = "Main St. 1_2_ _annex_"%string.
Proof. reflexivity. Qed.

End SanitizeProps.

(** ** Capture mode, continued: what [find_images] can report *)

Module CaptureProps.

Import Py Capture.

(** A call has not saved an image: it returned 0 or raised. *)
Definition unsaved (r : result Z) : Prop := r = Ok 0%Z \/ exists e, r = Raise e.

Lemma handled_unsaved (e : exn) :
  unsaved (try_except (Raise e) [KeyboardInterrupt] (fun _ => Ok 0%Z)).
Proof.
  unfold try_except. case_bool_decide; [left; reflexivity|right; eauto].
Qed.

Lemma capture_location_unsaved fuel b files location :
  exists r, capture_location fuel b files location = Some (r, files) /\ unsaved r.
Proof.
  unfold capture_location.
  destruct location as [|address [|lat [|lon [|? ?]]]];
    try (eexists; split; [reflexivity|right; eauto]).
  destruct (launch b) as [[]|e1]; cbn [mbind result_bind];
    [|eexists; split; [reflexivity|apply handled_unsaved]].
  destruct (goto b) as [[]|e2]; cbn [mbind result_bind];
    [|eexists; split; [reflexivity|apply handled_unsaved]].
  destruct (wait_canvas b) as [[]|e3]; cbn [mbind result_bind];
    [|eexists; split; [reflexivity|apply handled_unsaved]].
  destruct (wait_image b) as [[]|e4]; cbn [mbind result_bind];
    [|eexists; split; [reflexivity|apply handled_unsaved]].
  change (load_name "img_selector") with (@Raise unit NameError).
  cbn [mbind result_bind].
  eexists; split; [reflexivity|apply handled_unsaved].
Qed.

Lemma run_calls_unsaved fuel calls files :
  exists outcomes,
    run_calls fuel calls files = Some (outcomes, files) /\
    length outcomes = length calls /\ Forall unsaved outcomes.
Proof.
  induction calls as [|[b location] calls IH]; cbn [run_calls].
  { exists []. repeat split. constructor. }
  destruct (capture_location_unsaved fuel b files location) as (r & -> & Hr).
  destruct IH as (outcomes & Hrest & Hlen & Hall). simpl. rewrite Hrest.
  exists (r :: outcomes). split; [reflexivity|]. split; [simpl; lia|].
  constructor; assumption.
Qed.

Lemma count_successes_unsaved outcomes :
  Forall unsaved outcomes -> unsaved (Z.of_nat <$> count_successes outcomes 0).
Proof.
  induction 1 as [|r outcomes [->|[e ->]] _ IH]; cbn [count_successes].
  - left. reflexivity.
  - exact IH.
  - right. eauto.
Qed.

(** Whatever the file holds and whatever the browsers do, [find_images]
    saves no image: it adds no file, and it ends by an exception or with
    [success_count] at 0.  Every row of the file is tried; with an empty
    file the count is 0. *)
Theorem find_images_saves_nothing (fuel : nat)
  (calls : list (session * list string)) (files : gset string) :
  exists outcomes r,
    run_calls fuel calls files = Some (outcomes, files) /\
    length outcomes = length calls /\
    find_images fuel calls files = Some (r, files) /\
    (r = Ok 0%nat \/ exists e, r = Raise e) /\
    (calls = [] -> r = Ok 0%nat).
Proof.
  destruct (run_calls_unsaved fuel calls files) as (outcomes & Hrun & Hlen & Hall).
  exists outcomes, (count_successes outcomes 0).
  split; [exact Hrun|]. split; [exact Hlen|].
  unfold find_images. rewrite Hrun. split; [reflexivity|]. split.
  - pose proof (count_successes_unsaved outcomes Hall) as H.
    destruct (count_successes outcomes 0) as [n|e']; [|right; eauto].
    destruct H as [H|[e H]]; simpl in H; [|discriminate].
    left. f_equal. injection H as H. lia.
  - intros ->. simpl in Hrun. injection Hrun as <-. reflexivity.
Qed.

End CaptureProps.

(** ** The spiral, continued: its path and its edge cases *)

Module SpiralPath.

Import Spiral.

Local Open Scope Z_scope.

(** [q] is one step right, down, left or up of [p]. *)
Definition one_step (step : Z) (p q : point) : Prop :=
  exists dx dy, (dx, dy) ∈ directions /\
                q = (fst p + dx * step, snd p + dy * step).

(** Each point of [pts] is one step from the one before it, the first one
    from [p]. *)
Fixpoint path (step : Z) (p : point) (pts : list point) : Prop :=
  match pts with
  | [] => True
  | q :: pts' => one_step step p q /\ path step q pts'
  end.

Lemma last_nonempty (a : point) (l : list point) (d d' : point) :
  List.last (a :: l) d = List.last (a :: l) d'.
Proof.
  revert a; induction l as [|b l IH]; intros a; [reflexivity|].
  change (List.last (b :: l) d = List.last (b :: l) d'). apply IH.
Qed.

Lemma path_app step p pts1 pts2 :
  path step p pts1 -> path step (List.last pts1 p) pts2 ->
  path step p (pts1 ++ pts2).
Proof.
  revert p; induction pts1 as [|q pts1 IH]; intros p; [simpl; auto|].
  intros [Hq H1] H2. split; [exact Hq|]. apply IH; [exact H1|].
  destruct pts1 as [|q' pts1]; [exact H2|].
  rewrite (last_nonempty q' pts1 q p). exact H2.
Qed.

Lemma last_app_end (pts1 pts2 : list point) p :
  List.last (pts1 ++ pts2) p = List.last pts2 (List.last pts1 p).
Proof.
  revert p; induction pts1 as [|q pts1 IH]; intros p; [reflexivity|].
  change ((q :: pts1) ++ pts2) with (q :: (pts1 ++ pts2)).
  destruct pts1 as [|q' pts1].
  - destruct pts2 as [|b pts2]; [reflexivity|].
    change (List.last (b :: pts2) p = List.last (b :: pts2) q).
    apply last_nonempty.
  - change (List.last (q :: (q' :: pts1) ++ pts2) p)
      with (List.last ((q' :: pts1) ++ pts2) p).
    rewrite IH. reflexivity.
Qed.

Section Box.

Variables x_min x_max y_min y_max step : Z.

Lemma segment_path dx dy n x y :
  (dx, dy) ∈ directions ->
  path step (x, y) (fst (segment x_min x_max y_min y_max step dx dy n x y)) /\
  forall p, snd (segment x_min x_max y_min y_max step dx dy n x y) = Some p ->
    p = List.last (fst (segment x_min x_max y_min y_max step dx dy n x y)) (x, y).
Proof.
  intros Hd. revert x y; induction n as [|n IH]; intros x y; cbn [segment].
  { split; [exact I|]. intros p [= <-]. reflexivity. }
  assert (one_step step (x, y) (x + dx * step, y + dy * step)) as Hstep
    by (exists dx, dy; auto).
  destruct (outside _ _ _ _ _ _); [split; [exact I|discriminate]|].
  destruct (at_edge _ _ _ _ _ _ _ _); [split; [split; [exact Hstep|exact I]|discriminate]|].
  destruct (IH (x + dx * step) (y + dy * step)) as [Hpath Hlast].
  destruct (segment _ _ _ _ _ dx dy n _ _) as [pts r]. cbn [fst snd] in *.
  split; [split; assumption|].
  intros p Hp. rewrite (Hlast p Hp). destruct pts as [|p0 pts]; [reflexivity|].
  change (List.last (p0 :: pts) (x + dx * step, y + dy * step)
          = List.last (p0 :: pts) (x, y)).
  apply last_nonempty.
Qed.

Lemma legs_path k L d x y :
  path step (x, y) (fst (legs x_min x_max y_min y_max step k L d x y)) /\
  forall d' x' y',
    snd (legs x_min x_max y_min y_max step k L d x y) = Completed d' x' y' ->
    (x', y') = List.last (fst (legs x_min x_max y_min y_max step k L d x y)) (x, y).
Proof.
  revert d x y; induction k as [|k IH]; intros d x y; cbn [legs].
  { split; [exact I|]. intros d' x' y' [= _ <- <-]. reflexivity. }
  destruct (directions !! d) as [[dx dy]|] eqn:Hd; [|split; [exact I|discriminate]].
  apply list_elem_of_lookup_2 in Hd.
  destruct (segment_path dx dy L x y Hd) as [Hpath Hlast].
  destruct (segment _ _ _ _ _ dx dy L x y) as [pts [[x1 y1]|]]; cbn [fst snd] in *;
    [|split; [exact Hpath|discriminate]].
  specialize (Hlast _ eq_refl).
  destruct (IH ((d + 1) mod 4)%nat x1 y1) as [Hpath' Hlast'].
  destruct (legs _ _ _ _ _ k L _ x1 y1) as [pts' r]. cbn [fst snd] in *.
  split.
  - apply path_app; [exact Hpath|]. rewrite <- Hlast. exact Hpath'.
  - intros d' x' y' Hr. rewrite last_app_end, <- Hlast. apply (Hlast' d'). exact Hr.
Qed.

Lemma spiral_loop_path fuel L d x y pts e :
  spiral_loop x_min x_max y_min y_max step fuel L d x y = Some (pts, e) ->
  path step (x, y) pts.
Proof.
  revert L d x y pts e; induction fuel as [|fuel IH]; intros L d x y pts e;
    [discriminate|].
  cbn [spiral_loop].
  destruct (legs_path 2 L d x y) as [Hpath Hlast].
  destruct (legs _ _ _ _ _ 2 L d x y) as [pts0 [e0|d2 x2 y2]]; cbn [fst snd] in *.
  - intros [= <- <-]. exact Hpath.
  - destruct (spiral_loop _ _ _ _ _ fuel _ d2 x2 y2) as [[pts' e']|] eqn:Hloop;
      [|discriminate].
    intros [= <- <-]. apply path_app; [exact Hpath|].
    rewrite <- (Hlast _ _ _ eq_refl). exact (IH _ _ _ _ _ _ Hloop).
Qed.

End Box.

(** The points the generator yields form a path: the first one is the
    center, and each further one lies exactly one [step] right, down, left
    or up of the point yielded before it. *)
Theorem spiral_is_a_path fuel width height limits step pts e :
  spiral fuel width height limits step = Some (pts, e) ->
  exists rest, pts = (width / 2, height / 2) :: rest /\
               path step (width / 2, height / 2) rest.
Proof.
  unfold spiral. cbv zeta.
  destruct (spiral_loop _ _ _ _ _ fuel _ _ _ _) as [[pts' e']|] eqn:Hloop;
    [|discriminate].
  intros [= <- <-]. exists pts'. split; [reflexivity|].
  exact (spiral_loop_path _ _ _ _ _ _ _ _ _ _ _ _ Hloop).
Qed.

Lemma spiral_is_a_path_witness :
  exists rest,
    [(10, 10); (15, 10); (15, 15); (10, 15); (5, 15); (5, 10); (5, 5);
     (10, 5); (15, 5); (20, 5)] = (20 / 2, 20 / 2) :: rest /\
    path 5 (20 / 2, 20 / 2) rest.
Proof. exact (spiral_is_a_path 5 20 20 (0, 0) 5 _ _ spiral_20_20). Defined.

(** When the limits cross, so that the box is empty, the generator yields
    the center and nothing else, whatever the step. *)
Theorem spiral_of_empty_box fuel width height lx ly step :
  width - lx < lx \/ height - ly < ly ->
  spiral (S fuel) width height (lx, ly) step
  = Some ([(width / 2, height / 2)], Return).
Proof.
  intros Hempty. unfold spiral. cbv zeta. cbn [fst snd spiral_loop legs segment].
  change (directions !! 0%nat) with (Some (1, 0)).
  cbv iota beta.
  assert (outside lx (width - lx) ly (height - ly)
            (width / 2 + 1 * step) (height / 2 + 0 * step) = true) as ->.
  { unfold outside. rewrite !Z.gtb_ltb.
    repeat match goal with
           | |- context [(?a <? ?b)] => destruct (Z.ltb_spec a b)
           end; simpl; try reflexivity; lia. }
  reflexivity.
Qed.

Lemma spiral_of_empty_box_witness :
  spiral 1 20 20 (11, 0) 5 = Some ([(20 / 2, 20 / 2)], Return).
Proof. apply spiral_of_empty_box. lia. Defined.

(** With step 0 and the center strictly inside the box the generator never
    returns: it yields the center for ever. *)
Theorem spiral_step_0_never_returns fuel width height lx ly :
  lx < width / 2 < width - lx ->
  ly < height / 2 < height - ly ->
  spiral fuel width height (lx, ly) 0 = None.
Proof.
  intros Hx Hy. unfold spiral. cbv zeta. cbn [fst snd].
  set (cx := width / 2) in *. set (cy := height / 2) in *.
  assert (forall q, grid 0 cx cy q = (cx, cy)) as Hgrid.
  { intros q. unfold grid. f_equal; lia. }
  assert (forall q, interior lx (width - lx) ly (height - ly) (grid 0 cx cy q)) as Hint.
  { intros q. rewrite Hgrid. unfold interior; cbn [fst snd]. lia. }
  enough (forall L d, d = 0%nat \/ d = 2%nat ->
            spiral_loop lx (width - lx) ly (height - ly) 0 fuel L d cx cy = None)
    as Hloop by (rewrite Hloop; auto).
  induction fuel as [|fuel IH]; intros L d Hd; [reflexivity|].
  cbn [spiral_loop].
  assert (exists dx dy dx' dy',
             directions !! d = Some (dx, dy) /\
             directions !! ((d + 1) mod 4)%nat = Some (dx', dy') /\
             ((((d + 1) mod 4 + 1) mod 4)%nat = 0%nat \/
              (((d + 1) mod 4 + 1) mod 4)%nat = 2%nat))
    as (dx & dy & dx' & dy' & Hd1 & Hd2 & Hd3).
  { destruct Hd as [-> | ->]; [exists 1, 0, 0, 1|exists (-1), 0, 0, (-1)];
      repeat split; auto. }
  destruct (legs_two_progress lx (width - lx) ly (height - ly) 0 cx cy
              L d dx dy dx' dy' 0 0 L L Hd1 Hd2 (le_n _))
    as [_ Hfull].
  { intros u _. apply Hint. }
  { intros _. split; [lia|]. intros u _. apply Hint. }
  destruct (Hfull eq_refl) as [_ Hdone]. specialize (Hdone eq_refl).
  rewrite !Hgrid in Hdone. cbn [fst snd] in Hdone.
  destruct (legs _ _ _ _ _ 2 L d cx cy) as [pts r]. cbn [snd] in Hdone. subst r.
  rewrite IH by exact Hd3. reflexivity.
Qed.

Lemma spiral_step_0_never_returns_witness : spiral 1000 20 20 (0, 0) 0 = None.
Proof. apply spiral_step_0_never_returns; vm_compute; split; reflexivity. Defined.

End SpiralPath.

(** ** The prompts: [get_input] and the three questions of scan mode *)

Module Prompt.

Import Py Validate.

#[local] Set Warnings "-inexact-float".

(** [get_input(prompt, validation, error_message)] reading from the lines
    still to come on standard input: the error messages it prints, and the
    input it returns together with the lines left, or the exception that
    ends it ([input()] raises [EOFError], here [OtherError], when no line
    is left). *)
Fixpoint get_input (validation : string -> result bool) (error_message : string)
  (inputs : list string) : list string * result (string * list string) :=
  match inputs with
  | [] => ([], Raise OtherError)
  | user_input :: inputs' =>
      match validation user_input with
      | Raise e => ([], Raise e)
      | Ok true => ([], Ok (user_input, inputs'))
      | Ok false =>
          let '(printed, r) := get_input validation error_message inputs' in
          (error_message :: printed, r)
      end
  end.

(** [get_input] skips the inputs that fail the validation, printing the
    error message once for each, and returns the first input that passes
    it, leaving the later lines unread. *)
Theorem get_input_first_valid validation error_message rejected v rest :
  Forall (fun x => validation x = Ok false) rejected ->
  validation v = Ok true ->
  get_input validation error_message (rejected ++ v :: rest)
  = (replicate (length rejected) error_message, Ok (v, rest)).
Proof.
  intros Hrej Hv. induction Hrej as [|x rejected Hx _ IH]; simpl.
  - rewrite Hv. reflexivity.
  - rewrite Hx, IH. reflexivity.
Qed.

(** When no input passes a validation that does not raise, [get_input]
    prints the message for each line and ends on the end of the input. *)
Theorem get_input_no_valid validation error_message inputs :
  Forall (fun x => validation x = Ok false) inputs ->
  get_input validation error_message inputs
  = (replicate (length inputs) error_message, Raise OtherError).
Proof.
  induction 1 as [|x inputs Hx _ IH]; simpl; [reflexivity|].
  rewrite Hx, IH. reflexivity.
Qed.

Lemma get_input_accepts validation error_message inputs printed v rest :
  get_input validation error_message inputs = (printed, Ok (v, rest)) ->
  validation v = Ok true.
Proof.
  revert printed; induction inputs as [|x inputs IH]; intros printed; simpl;
    [discriminate|].
  destruct (validation x) as [[]|e] eqn:Hx; try discriminate.
  - intros [= _ <- _]. exact Hx.
  - destruct (get_input validation error_message inputs) as [printed' r].
    intros [= _ ->]. eapply IH. reflexivity.
Qed.

Lemma get_input_raises validation error_message inputs printed e :
  (forall x, validation x = Ok true \/ validation x = Ok false) ->
  get_input validation error_message inputs = (printed, Raise e) ->
  e = OtherError.
Proof.
  intros Htotal. revert printed; induction inputs as [|x inputs IH];
    intros printed; simpl; [intros [= _ <-]; reflexivity|].
  destruct (Htotal x) as [-> | ->]; [discriminate|].
  destruct (get_input validation error_message inputs) as [printed' r].
  intros [= _ ->]. eapply IH. reflexivity.
Qed.

Section Scan_prompts.

Variable parse_float : string -> option float.

(** The three prompts of [scan_locations] and the conversions that follow
    them: [lat, lon = float(lat), float(lon)] and [radius = float(radius)]. *)
Definition scan_prompts (inputs : list string)
  : list string * result (float * float * float * list string) :=
  let '(printed1, r1) :=
    get_input (fun x => validate_coordinates parse_float x "0")
      "Invalid coordinates!" inputs in
  match r1 with
  | Raise e => (printed1, Raise e)
  | Ok (lat, inputs) =>
      let '(printed2, r2) :=
        get_input (fun x => validate_coordinates parse_float "0" x)
          "Invalid coordinates!" inputs in
      match r2 with
      | Raise e => (printed1 ++ printed2, Raise e)
      | Ok (lon, inputs) =>
          let '(printed3, r3) :=
            get_input (validate_radius parse_float) "Invalid radius!" inputs in
          match r3 with
          | Raise e => (printed1 ++ printed2 ++ printed3, Raise e)
          | Ok (radius, inputs) =>
              (printed1 ++ printed2 ++ printed3,
               lat ← float_of_str parse_float lat;
               lon ← float_of_str parse_float lon;
               radius ← float_of_str parse_float radius;
               Ok (lat, lon, radius, inputs))
          end
      end
  end.

Lemma validate_coordinates_true lat lon :
  validate_coordinates parse_float lat lon = Ok true ->
  exists a b, parse_float lat = Some a /\ parse_float lon = Some b /\
              between (-90) a 90 = true /\ between (-180) b 180 = true.
Proof.
  unfold validate_coordinates, float_of_str, float_of_float.
  destruct (parse_float lat) as [a|], (parse_float lon) as [b|]; simpl;
    try discriminate.
  destruct (between (-90) a 90) eqn:Ha; simpl; [|discriminate].
  intros [= Hb]. eauto 10.
Qed.

Lemma validate_coordinates_total lat lon :
  validate_coordinates parse_float lat lon = Ok true \/
  validate_coordinates parse_float lat lon = Ok false.
Proof.
  unfold validate_coordinates, float_of_str, float_of_float.
  destruct (parse_float lat) as [a|], (parse_float lon) as [b|]; simpl; auto.
  destruct (between (-90) a 90); simpl; auto.
  destruct (between (-180) b 180); auto.
Qed.

Lemma validate_radius_true radius :
  validate_radius parse_float radius = Ok true ->
  exists r, parse_float radius = Some r /\ between 0.01 r 10000 = true.
Proof.
  unfold validate_radius, float_of_str.
  destruct (parse_float radius) as [r|]; simpl; [|discriminate].
  intros [= Hr]. eauto.
Qed.

Lemma validate_radius_total radius :
  validate_radius parse_float radius = Ok true \/
  validate_radius parse_float radius = Ok false.
Proof.
  unfold validate_radius, float_of_str.
  destruct (parse_float radius) as [r|]; simpl; auto.
  destruct (between 0.01 r 10000); auto.
Qed.

(** The conversions after the prompts never raise [ValueError]: the three
    prompts end only on the end of the input, or with a latitude in
    [-90, 90], a longitude in [-180, 180] and a radius in [0.01, 10000]. *)
Theorem scan_prompts_in_range (inputs : list string) :
  match snd (scan_prompts inputs) with
  | Ok (lat, lon, radius, _) =>
      between (-90) lat 90 = true /\ between (-180) lon 180 = true /\
      between 0.01 radius 10000 = true
  | Raise e => e = OtherError
  end.
Proof.
  unfold scan_prompts.
  destruct (get_input _ _ inputs) as [printed1 [[lat inputs1]|e]] eqn:H1.
  2:{ cbn [snd]. eapply get_input_raises; [|exact H1].
      intros x. apply validate_coordinates_total. }
  apply get_input_accepts in H1.
  destruct (get_input _ _ inputs1) as [printed2 [[lon inputs2]|e]] eqn:H2.
  2:{ cbn [snd]. eapply get_input_raises; [|exact H2].
      intros x. apply validate_coordinates_total. }
  apply get_input_accepts in H2.
  destruct (get_input _ _ inputs2) as [printed3 [[radius inputs3]|e]] eqn:H3.
  2:{ cbn [snd]. eapply get_input_raises; [|exact H3].
      intros x. apply validate_radius_total. }
  apply get_input_accepts in H3. cbn [snd].
  apply validate_coordinates_true in H1 as (a & _ & Ha & _ & Hra & _).
  apply validate_coordinates_true in H2 as (_ & b & _ & Hb & _ & Hrb).
  apply validate_radius_true in H3 as (r & Hr & Hrr).
  unfold float_of_str. rewrite Ha, Hb, Hr. simpl. auto.
Qed.

End Scan_prompts.

(** [float] on the strings of the example below. *)
Definition parse_sample (x : string) : option float :=
  if String.eqb x "0" then Some 0%float
  else if String.eqb x "50.45" then Some 50.45%float
  else if String.eqb x "30.52" then Some 30.52%float
  else if String.eqb x "0.5" then Some 0.5%float
  else if String.eqb x "95" then Some 95%float
  else None.

Example scan_prompts_sample :
  scan_prompts parse_sample ["north"; "95"; "50.45"; "30.52"; ""; "0.5"; "left"]
  = (["Invalid coordinates!"; "Invalid coordinates!"; "Invalid radius!"],
     Ok (50.45%float, 30.52%float, 0.5%float, ["left"]))%string.
Proof. vm_compute. reflexivity. Qed.

Lemma get_input_first_valid_witness :
  get_input (validate_radius parse_sample) "Invalid radius!"
    (["ten"; "0"] ++ "0.5" :: ["next"])
  = (replicate (length ["ten"; "0"]) "Invalid radius!", Ok ("0.5", ["next"]))%string.
Proof.
  apply (get_input_first_valid _ _ ["ten"; "0"] "0.5" ["next"])%string.
  - constructor; [vm_compute; reflexivity|].
    constructor; [vm_compute; reflexivity|]. constructor.
  - vm_compute. reflexivity.
Defined.

Lemma get_input_no_valid_witness :
  get_input (validate_radius parse_sample) "Invalid radius!" ["ten"; "0"]
  = (replicate (length ["ten"; "0"]) "Invalid radius!", Raise OtherError)%string.
Proof.
  apply get_input_no_valid.
  constructor; [vm_compute; reflexivity|].
  constructor; [vm_compute; reflexivity|]. constructor.
Defined.

End Prompt.

(** ** Scan mode: how [scan_locations] finds the limits of the spiral *)

Module Limits.

#[local] Set Warnings "-inexact-float".

Import Py.

Local Open Scope Z_scope.

(** What the page answers to one probe, a right click on the map. *)
Record probe : Type := {
  right_click : result unit;    (* page.mouse.click(..., button='right') *)
  coords_text : result string;  (* div[data-index="0"] .text_content() *)
  click_away : result unit      (* page.mouse.click on the corner *)
}.

(** How one pass of a limit loop ends when it does not raise. *)
Inductive pass_exit : Type :=
| Break
| Next.

Section Limit_loops.

Variable parse_float : string -> option float.

(** [geodesic((lat, lon), coords).kilometers], which raises on a latitude
    out of range. *)
Variable geodesic_km : float * float -> float * float -> result float.

Variables (lat lon radius : float) (zoom : Z).

(** [coords[i]] *)
Definition item (coords : list string) (i : nat) : result string :=
  match coords !! i with
  | Some c => Ok c
  | None => Raise IndexError
  end.

(** One pass of [for _ in tqdm(range(...))], up to the test of the
    distance. *)
Definition pass (p : probe) : result pass_exit :=
  _ ← right_click p;
  tried ← try_except (Some <$> coords_text p) Scan.caught (fun _ => Ok None);
  match tried with
  | None => Ok Break
  | Some coords =>
      _ ← click_away p;
      let coords := Scan.split ", " coords in
      c0 ← item coords 0;
      c0 ← Validate.float_of_str parse_float c0;
      c1 ← item coords 1;
      c1 ← Validate.float_of_str parse_float c1;
      distance ← geodesic_km (lat, lon) (c0, c1);
      if PrimFloat.ltb radius distance then Ok Break else Ok Next
  end.

(** A limit loop of [count] passes at most over the probes [probes]: the
    values of the coordinate ([x] or [y]) and of its limit at the end, and
    the exception that ended it if one did. *)
Fixpoint limit_loop (count : nat) (probes : nat -> probe) (i : nat)
  (x limit : Z) : Z * Z * result unit :=
  match count with
  | O => (x, limit, Ok tt)
  | S count' =>
      match pass (probes i) with
      | Raise e => (x, limit, Raise e)
      | Ok Break => (x, limit, Ok tt)
      | Ok Next => limit_loop count' probes (S i) (x - zoom) (limit - zoom)
      end
  end.

(** [range((x - margin) // zoom)]: its length, or [ZeroDivisionError]
    (here [OtherError]). *)
Definition passes (x margin : Z) : result nat :=
  if zoom =? 0 then Raise OtherError else Ok (Z.to_nat ((x - margin) / zoom)).

(** From [limits = [width // 2, height // 2]] to the end of the second
    loop: the value of [limits], and the exception that ended the search
    if one did. *)
Definition find_limits (width height : Z) (probes_x probes_y : nat -> probe)
  (after_x : result unit) : Z * Z * result unit :=
  let limits := (width / 2, height / 2) in
  let '(x, y) := limits in
  match passes x 100 with
  | Raise e => (limits, Raise e)
  | Ok count =>
      let '(x, limit_x, r) := limit_loop count probes_x 0 x (fst limits) in
      let limits := (limit_x, snd limits) in
      match r with
      | Raise e => (limits, Raise e)
      | Ok _ =>
          match after_x with   (* page.mouse.click on the corner *)
          | Raise e => (limits, Raise e)
          | Ok _ =>
              let x := width / 2 in
              match passes y 120 with
              | Raise e => (limits, Raise e)
              | Ok count =>
                  let '(y, limit_y, r) :=
                    limit_loop count probes_y 0 y (snd limits) in
                  ((fst limits, limit_y), r)
              end
          end
      end
  end.

Lemma limit_loop_steps count probes i x limit :
  exists k : nat,
    (k <= count)%nat /\
    fst (limit_loop count probes i x limit)
    = (x - Z.of_nat k * zoom, limit - Z.of_nat k * zoom).
Proof.
  revert i x limit; induction count as [|count IH]; intros i x limit; simpl.
  { exists 0%nat. split; [lia|]. f_equal; lia. }
  destruct (pass (probes i)) as [[]|e].
  - exists 0%nat. split; [lia|]. simpl. f_equal; lia.
  - destruct (IH (S i) (x - zoom) (limit - zoom)) as (k & Hk & ->).
    exists (S k). split; [lia|]. f_equal; lia.
  - exists 0%nat. split; [lia|]. simpl. f_equal; lia.
Qed.

Lemma limit_above_margin (x margin : Z) (k : nat) :
  0 < zoom -> (k <= Z.to_nat ((x - margin) / zoom))%nat ->
  Z.min x margin <= x - Z.of_nat k * zoom <= x.
Proof.
  intros Hz Hk.
  destruct (Z.le_gt_cases margin x) as [Hm|Hm].
  - pose proof (Z.mul_div_le (x - margin) zoom Hz).
    assert (0 <= (x - margin) / zoom) by (apply Z.div_pos; lia).
    assert (Z.of_nat k <= (x - margin) / zoom) by lia. nia.
  - assert ((x - margin) / zoom < 0) by (apply Z.div_lt_upper_bound; lia).
    assert (k = 0%nat) as -> by lia. lia.
Qed.

(** Whatever the page answers, with a positive zoom the limits that the
    two loops leave behind stay between the margins (100 and 120 pixels)
    and the center, a whole number of zoom steps from the center: they are
    limits that the spiral accepts. *)
Theorem find_limits_between_margin_and_center width height probes_x probes_y
  after_x :
  0 < zoom -> 0 <= width -> 0 <= height ->
  let '(lx, ly, _) := find_limits width height probes_x probes_y after_x in
  Z.min (width / 2) 100 <= lx <= width / 2 /\
  Z.min (height / 2) 120 <= ly <= height / 2 /\
  0 <= lx /\ 0 <= ly /\
  (zoom | width / 2 - lx) /\ (zoom | height / 2 - ly).
Proof.
  intros Hz Hw Hh. unfold find_limits, passes.
  assert (0 <= width / 2) as Hcx by (apply Z.div_pos; lia).
  assert (0 <= height / 2) as Hcy by (apply Z.div_pos; lia).
  rewrite (proj2 (Z.eqb_neq zoom 0)) by lia. cbn [fst snd].
  destruct (limit_loop_steps (Z.to_nat ((width / 2 - 100) / zoom)) probes_x 0
              (width / 2) (width / 2)) as (k & Hk & Hx).
  destruct (limit_loop _ probes_x 0 _ _) as [[x limit_x] r].
  cbn [fst] in Hx. injection Hx as -> ->.
  pose proof (limit_above_margin (width / 2) 100 k Hz Hk) as Hlx.
  assert (zoom | width / 2 - (width / 2 - Z.of_nat k * zoom)) as Hdx.
  { exists (Z.of_nat k). lia. }
  assert (zoom | height / 2 - height / 2) as Hd0 by (exists 0; lia).
  destruct r as [[]|e]; [|cbn [fst snd]; repeat split; auto; lia].
  destruct after_x as [[]|e]; [|cbn [fst snd]; repeat split; auto; lia].
  destruct (limit_loop_steps (Z.to_nat ((height / 2 - 120) / zoom)) probes_y 0
              (height / 2) (height / 2)) as (k' & Hk' & Hy).
  destruct (limit_loop _ probes_y 0 _ _) as [[y limit_y] r].
  cbn [fst] in Hy. injection Hy as -> ->.
  pose proof (limit_above_margin (height / 2) 120 k' Hz Hk') as Hly.
  repeat split; auto; try lia. exists (Z.of_nat k'). lia.
Qed.

End Limit_loops.

(** A page on which every probe answers with a point 0.3 km away. *)
Definition near : probe :=
  {| right_click := Ok tt; coords_text := Ok "50.45, 30.52"%string;
     click_away := Ok tt |}.

Definition parse_sample (x : string) : option float :=
  if String.eqb x "50.45" then Some 50.45%float
  else if String.eqb x "30.52" then Some 30.52%float
  else None.

Example find_limits_sample :
  find_limits parse_sample (fun _ _ => Ok 0.3%float) 50.45 30.52 0.5 15
    1000 800 (fun _ => near) (fun _ => near) (Ok tt)
  = (110, 130, Ok tt).
Proof. vm_compute. reflexivity. Qed.

Lemma find_limits_between_margin_and_center_witness :
  let '(lx, ly, _) :=
    find_limits parse_sample (fun _ _ => Ok 0.3%float) 50.45 30.52 0.5 15
      1000 800 (fun _ => near) (fun _ => near) (Ok tt) in
  Z.min (1000 / 2) 100 <= lx <= 1000 / 2 /\
  Z.min (800 / 2) 120 <= ly <= 800 / 2 /\
  0 <= lx /\ 0 <= ly /\
  (15 | 1000 / 2 - lx) /\ (15 | 800 / 2 - ly).
Proof.
  apply (find_limits_between_margin_and_center parse_sample
           (fun _ _ => Ok 0.3%float) 50.45 30.52 0.5 15 1000 800); lia.
Defined.

End Limits.

(** ** [load_browser]: what stops it and what does not *)

Module Browser.

Import Py.

(** What the page does during one call of [load_browser]; a call on an
    element that [query_selector] did not find raises [AttributeError]. *)
Record page : Type := {
  goto : result unit;             (* page.goto(..., timeout=100000) *)
  wait_canvas : result unit;      (* page.wait_for_selector('canvas') *)
  open_settings : result unit;    (* the navigationrail.more button, .click() *)
  sidebar_checked : result bool;  (* the toggleSideBar switch, aria-checked == 'true' *)
  toggle_sidebar : result unit;   (* switch.click() *)
  close_settings : result unit;   (* the settings.close button, .click() *)
  remove_itamenu : result unit;   (* #itamenu, node.remove() *)
  remove_chips : result unit      (* #assistive-chips, node.remove() *)
}.

(** What [load_browser] prints and does to the side bar. *)
Inductive message : Type :=
| Disabling_sidebar
| Sidebar_toggled
| Sidebar_error (e : exn)
| Removing_navigations
| Browser_ready.

(** The body of the [try]: whether the side bar was toggled, and how the
    block ends. *)
Definition sidebar_block (p : page) : list message * result unit :=
  match open_settings p with
  | Raise e => ([], Raise e)
  | Ok _ =>
      match sidebar_checked p with
      | Raise e => ([], Raise e)
      | Ok true =>
          match toggle_sidebar p with
          | Raise e => ([], Raise e)
          | Ok _ => ([Sidebar_toggled], close_settings p)
          end
      | Ok false => ([], close_settings p)
      end
  end.

Definition load_browser (p : page) : list message * result unit :=
  match (_ ← goto p; wait_canvas p) with
  | Raise e => ([], Raise e)
  | Ok _ =>
      let '(done, r) := sidebar_block p in
      match r with
      | Raise e =>
          if bool_decide (e ∈ Scan.caught) then
            (* except (PlaywrightTimeoutError, AttributeError) as e: print *)
            match (_ ← remove_itamenu p; remove_chips p) with
            | Raise e' =>
                (Disabling_sidebar :: done ++ [Sidebar_error e; Removing_navigations],
                 Raise e')
            | Ok _ =>
                (Disabling_sidebar :: done ++
                 [Sidebar_error e; Removing_navigations; Browser_ready], Ok tt)
            end
          else (Disabling_sidebar :: done, Raise e)
      | Ok _ =>
          match (_ ← remove_itamenu p; remove_chips p) with
          | Raise e' =>
              (Disabling_sidebar :: done ++ [Removing_navigations], Raise e')
          | Ok _ =>
              (Disabling_sidebar :: done ++ [Removing_navigations; Browser_ready],
               Ok tt)
          end
      end
  end.

(** The side bar block ends without an exception, or with one of the two
    classes that the handler names. *)
Definition sidebar_tolerated (p : page) : Prop :=
  forall e, snd (sidebar_block p) = Raise e -> e ∈ Scan.caught.

(** [load_browser] returns exactly when it has printed that the browser is
    ready.  A side bar that cannot be disabled (a missing button, a
    timeout) does not stop it, but it needs the map, the canvas and the two
    navigation elements: when one of [#itamenu] and [#assistive-chips] is
    missing the [AttributeError] leaves [load_browser].  The side bar is
    toggled only when it was checked. *)
Theorem load_browser_needs_navigation (p : page) :
  (snd (load_browser p) = Ok tt <-> Browser_ready ∈ fst (load_browser p)) /\
  (snd (load_browser p) = Ok tt <->
   goto p = Ok tt /\ wait_canvas p = Ok tt /\ sidebar_tolerated p /\
   remove_itamenu p = Ok tt /\ remove_chips p = Ok tt) /\
  (goto p = Ok tt -> wait_canvas p = Ok tt -> sidebar_tolerated p ->
   remove_itamenu p = Raise AttributeError ->
   snd (load_browser p) = Raise AttributeError) /\
  (Sidebar_toggled ∈ fst (load_browser p) -> sidebar_checked p = Ok true).
Proof.
  unfold sidebar_tolerated, load_browser, sidebar_block.
  destruct (goto p) as [[]|e1]; cbn [mbind result_bind fst snd];
    [|repeat split; intros; simplify_eq/=; try done; try set_solver;
      naive_solver].
  destruct (wait_canvas p) as [[]|e2]; cbn [fst snd];
    [|repeat split; intros; simplify_eq/=; try done; try set_solver;
      naive_solver].
  destruct (open_settings p) as [[]|e3];
    [destruct (sidebar_checked p) as [[]|e4];
     [destruct (toggle_sidebar p) as [[]|e5];
      [destruct (close_settings p) as [[]|e6]|]
     |destruct (close_settings p) as [[]|e6]|]|];
    cbn [fst snd];
    repeat case_bool_decide;
    destruct (remove_itamenu p) as [[]|e7]; cbn [mbind result_bind fst snd];
    try destruct (remove_chips p) as [[]|e8]; cbn [fst snd app];
    repeat split; intros; simplify_eq/=; try done; try set_solver;
    naive_solver.
Qed.

End Browser.

(** ** The scan over the cells of the spiral *)

Module ScanLoop.

Import Py Scan.

(** [for x, y in spiral(...)]: one page behaviour for each cell that the
    spiral yields, [building_count] before the loop; the events, the value
    of [building_count] after the loop, and how the loop ends. *)
Fixpoint scan_cells (pages : list cell_page) (building_count : nat)
  : option (list event * nat * result unit) :=
  match pages with
  | [] => Some ([], building_count, Ok tt)
  | p :: rest =>
      match scan_cell p with
      | None => None
      | Some (tr, Raise e) => Some (tr, building_count, Raise e)
      | Some (tr, Ok _) =>
          match scan_cells rest (building_count + length (rows_written tr))%nat with
          | None => None
          | Some (tr', n, r) => Some (tr ++ tr', n, r)
          end
      end
  end.

(** A row of the result file: an address that is not empty, and the two
    coordinates. *)
Definition location_row (r : list string) : Prop :=
  exists a c0 c1, r = [a; c0; c1] /\ a <> ""%string.

Lemma write_row_rows p address coords :
  Forall location_row (rows_written (fst (write_row p address coords))) /\
  (length (rows_written (fst (write_row p address coords))) <= 1)%nat /\
  attempts_made (fst (write_row p address coords)) = 0%nat /\
  (forall e, snd (write_row p address coords) = Raise e ->
             fst (write_row p address coords) = []).
Proof.
  unfold write_row. destruct address as [a|]; [|simpl; auto].
  destruct (falsy (Some a)) eqn:Hfalsy; [simpl; auto|].
  destruct (click_corner p); [|simpl; auto].
  destruct coords as [c|]; [|simpl; auto].
  destruct (c !! 0%nat) as [c0|]; [|simpl; auto].
  destruct (c !! 1%nat) as [c1|]; [|simpl; auto].
  simpl. split; [|split; [lia|split; [reflexivity|discriminate]]].
  constructor; [|constructor]. exists a, c0, c1. split; [reflexivity|].
  simpl in Hfalsy. apply String.eqb_neq. exact Hfalsy.
Qed.

Lemma scan_cell_rows p :
  exists tr r,
    scan_cell p = Some (tr, r) /\
    (attempts_made tr <= 3)%nat /\
    (length (rows_written tr) <= 1)%nat /\
    Forall location_row (rows_written tr) /\
    (forall e, r = Raise e -> rows_written tr = []).
Proof.
  destruct (retry_loop_events p max_retries 0 false None (le_n _))
    as (tr & r & Hrun & Hatt & Hrows & _).
  unfold max_retries in Hatt.
  unfold scan_cell. rewrite Hrun.
  destruct r as [[[] coords]|e].
  - pose proof (find_address_events p) as Hev1.
    destruct (find_address p) as [tr1 [address|e]]; cbn [fst] in Hev1.
    + destruct (write_row_rows p address coords) as (Hall & Hone & Hno & Hraise).
      destruct (write_row p address coords) as [tr2 r2].
      cbn [fst snd] in *. eexists _, _. split; [reflexivity|].
      rewrite !attempts_made_app, !rows_written_app, Hrows, Hno.
      assert (attempts_made tr1 = 0%nat /\ rows_written tr1 = []) as [-> ->]
        by (destruct Hev1 as [->| ->]; auto).
      simpl. repeat split; auto; try lia.
      intros e ->. rewrite (Hraise e eq_refl). reflexivity.
    + eexists _, _. split; [reflexivity|].
      rewrite !attempts_made_app, !rows_written_app, Hrows.
      assert (attempts_made tr1 = 0%nat /\ rows_written tr1 = []) as [-> ->]
        by (destruct Hev1 as [->| ->]; auto).
      simpl. repeat split; auto; lia.
  - eexists _, _. split; [reflexivity|]. rewrite Hrows.
    simpl. repeat split; auto; lia.
  - eexists _, _. split; [reflexivity|]. rewrite Hrows.
    simpl. repeat split; auto; lia.
Qed.

(** The loop over the cells ends for every behaviour of the page; the
    number printed as [Found n buildings] is the number of rows given to
    the writer, which is at most the number of cells; no more than three
    attempts are made for a cell; and every row holds an address that is
    not empty followed by two coordinates. *)
Theorem scan_cells_count (pages : list cell_page) (building_count : nat) :
  exists trace count outcome,
    scan_cells pages building_count = Some (trace, count, outcome) /\
    count = (building_count + length (rows_written trace))%nat /\
    (length (rows_written trace) <= length pages)%nat /\
    (attempts_made trace <= 3 * length pages)%nat /\
    Forall location_row (rows_written trace).
Proof.
  revert building_count.
  induction pages as [|p rest IH]; intros n.
  { exists [], n, (Ok tt). simpl. repeat split; auto; lia. }
  destruct (scan_cell_rows p) as (tr & r & Hcell & Hatt & Hone & Hall & Hraise).
  cbn [scan_cells]. rewrite Hcell.
  destruct r as [[]|e].
  - destruct (IH (n + length (rows_written tr))%nat)
      as (tr' & count & r' & Hrest & Hcount & Hlen & Hatt' & Hall').
    rewrite Hrest. eexists _, _, _. split; [reflexivity|].
    rewrite attempts_made_app, rows_written_app, length_app. cbn [length].
    repeat split; try lia. apply Forall_app. auto.
  - eexists _, _, _. split; [reflexivity|]. cbn [length].
    rewrite (Hraise e eq_refl) in *. simpl. repeat split; auto; lia.
Qed.

(** The handler of the retry loop calls [load_browser] outside of any
    [try]: when the attempts up to [attempt] fail with a caught exception
    and the reload after this one raises, of whatever class, the exception
    leaves the loop. *)
Lemma retry_loop_reload_raises p a e' :
  (forall m c, (m < a)%nat ->
     exists e, snd (try_body p m c) = Raise e /\ e ∈ caught /\ reload p m = Ok tt) ->
  (forall c, exists e, snd (try_body p a c) = Raise e /\ e ∈ caught) ->
  reload p a = Raise e' ->
  (a < max_retries)%nat ->
  forall k attempt fuel coords,
    (attempt + k = a)%nat -> (k < fuel)%nat ->
    exists tr,
      retry_loop p fuel attempt false coords = Some (tr, Raise e') /\
      rows_written tr = [] /\ attempts_made tr = (k + 1)%nat.
Proof.
  intros Hbefore Hlast Hreload Ha.
  induction k as [|k IH]; intros attempt fuel coords Hsum Hfuel;
    (destruct fuel as [|fuel]; [lia|]); cbn [retry_loop];
    (replace (attempt <? max_retries)%nat with true
      by (symmetry; apply Nat.ltb_lt; lia)); cbn [andb negb].
  - replace attempt with a by lia.
    destruct (Hlast coords) as (e & Hbody & Hcaught).
    destruct (try_body p a coords) as [c' r]. cbn [snd] in Hbody. subst r.
    rewrite bool_decide_eq_true_2 by exact Hcaught.
    rewrite Hreload. eexists. split; [reflexivity|]. auto.
  - destruct (Hbefore attempt coords ltac:(lia)) as (e & Hbody & Hcaught & Hok).
    destruct (try_body p attempt coords) as [c' r]. cbn [snd] in Hbody. subst r.
    rewrite bool_decide_eq_true_2 by exact Hcaught.
    rewrite Hok.
    destruct (IH (attempt + 1)%nat fuel c' ltac:(lia) ltac:(lia))
      as (tr & Hrun & Hrows & Hatt).
    rewrite Hrun. eexists. split; [reflexivity|].
    rewrite rows_written_app, attempts_made_app, Hrows, Hatt.
    replace (attempt + 1 =? max_retries)%nat with false
      by (symmetry; apply Nat.eqb_neq; lia).
    simpl. split; [reflexivity|lia].
Qed.

(** A reload that fails inside the handler ends the whole scan: when the
    attempts before the [n]-th one failed with a caught exception and were
    followed by a reload, and the [load_browser] after the [n]-th failure
    raises (an [AttributeError] of a missing [#itamenu] included), that
    exception leaves the cell after [n + 1] attempts with no row written,
    and the cells after it are not scanned. *)
Theorem scan_stops_when_reload_fails (p : cell_page) (rest : list cell_page)
  (n count : nat) (e' : exn) :
  (n < 3)%nat ->
  (forall m c, (m < n)%nat ->
     exists e, snd (try_body p m c) = Raise e /\ e ∈ caught /\ reload p m = Ok tt) ->
  (forall c, exists e, snd (try_body p n c) = Raise e /\ e ∈ caught) ->
  reload p n = Raise e' ->
  exists trace,
    scan_cell p = Some (trace, Raise e') /\
    scan_cells (p :: rest) count = Some (trace, count, Raise e') /\
    rows_written trace = [] /\
    attempts_made trace = (n + 1)%nat.
Proof.
  intros Hn Hbefore Hlast Hreload.
  destruct (retry_loop_reload_raises p n e' Hbefore Hlast Hreload Hn
              n 0%nat max_retries None ltac:(lia) Hn)
    as (tr & Hrun & Hrows & Hatt).
  exists tr. cbn [scan_cells]. unfold scan_cell. rewrite Hrun. auto.
Qed.

(** A page whose second attempt fails and whose reload after it finds no
    [#itamenu]. *)
Definition broken : cell_page :=
  {| right_click := fun _ => Ok tt;
     cursor_pointer := fun _ => Ok false;
     click_away := fun _ => Ok tt;
     coords_text := fun _ => Raise AttributeError;
     menu_click := fun _ => Ok tt;
     reload := fun n => match n with
                        | O => Ok tt
                        | _ => snd (Browser.load_browser
                                      {| Browser.goto := Ok tt;
                                         Browser.wait_canvas := Ok tt;
                                         Browser.open_settings := Ok tt;
                                         Browser.sidebar_checked := Ok true;
                                         Browser.toggle_sidebar := Ok tt;
                                         Browser.close_settings := Ok tt;
                                         Browser.remove_itamenu := Raise AttributeError;
                                         Browser.remove_chips := Ok tt |})
                        end;
     modal_address := Ok "Main St 1"%string;
     main_visible := Ok false;
     main_address := Raise AttributeError;
     reload_main := Ok tt;
     click_corner := Ok tt |}.

Example scan_cells_flaky_dead :
  scan_cells [flaky; dead; flaky] 0
  = Some ([Attempt 0; Interaction_error 0; Reload; Attempt 1;
           Write_row ["Main St 1"; "50.45"; "30.52"]%string;
           Attempt 0; Interaction_error 0; Reload;
           Attempt 1; Interaction_error 1; Reload;
           Attempt 2; Interaction_error 2; Reload; Fatal_error;
           Attempt 0; Interaction_error 0; Reload; Attempt 1;
           Write_row ["Main St 1"; "50.45"; "30.52"]%string], 2%nat, Ok tt).
Proof. reflexivity. Qed.

Lemma scan_stops_when_reload_fails_witness :
  exists trace,
    scan_cell broken = Some (trace, Raise AttributeError) /\
    scan_cells [broken; flaky] 0 = Some (trace, 0%nat, Raise AttributeError) /\
    rows_written trace = [] /\
    attempts_made trace = 2%nat.
Proof.
  apply (scan_stops_when_reload_fails broken [flaky] 1 0 AttributeError).
  - lia.
  - intros m c Hm. assert (m = 0%nat) as -> by lia.
    exists AttributeError. repeat split; try reflexivity.
    unfold caught. set_solver.
  - intros c. exists AttributeError. split; [reflexivity|].
    unfold caught. set_solver.
  - reflexivity.
Defined.

End ScanLoop.

(** ** Saving one result after another *)

Module FilesProps.

Import Files.

Lemma get_unique_filename_least (fs : filesystem) prefix fuel :
  (size fs < fuel)%nat ->
  exists m,
    get_unique_filename fuel fs prefix = Some (filename prefix m) /\
    path_exists fs (filename prefix m) = false /\
    forall i, (i < m)%nat -> path_exists fs (filename prefix i) = true.
Proof.
  intros Hfuel. destruct (free_index fs prefix) as (k & Hk & Hfree).
  destruct (get_unique_filename_loop_spec fuel fs prefix 0 k ltac:(lia) Hfree)
    as (m & Hm & Hrun & Hm_free & Hbelow).
  exists m. split; [exact Hrun|]. split; [exact Hm_free|].
  intros i Hi. apply Hbelow. lia.
Qed.

Lemma path_exists_write_csv (fs : filesystem) data output_file path :
  path_exists (write_csv data output_file fs) path
  = bool_decide (path = output_file) || path_exists fs path.
Proof.
  unfold path_exists, write_csv.
  destruct (decide (path = output_file)) as [->|Hne].
  - rewrite lookup_insert_eq.
    rewrite (bool_decide_eq_true_2 (output_file = output_file)) by reflexivity.
    reflexivity.
  - rewrite lookup_insert_ne by congruence.
    rewrite (bool_decide_eq_false_2 (path = output_file)) by exact Hne.
    reflexivity.
Qed.

(** Two results saved one after the other under one prefix go to two
    files, the second with the larger index and every index between the two
    already taken; after the second save both files hold their own rows,
    and every file that existed before is as it was. *)
Theorem save_twice_keeps_both (fs : filesystem) (prefix : string)
  (data1 data2 : list Filter.row) (fuel : nat) :
  (size fs + 1 < fuel)%nat ->
  exists i j fs1 fs2,
    save_result fuel fs prefix data1 = Some (filename prefix i, fs1) /\
    save_result fuel fs1 prefix data2 = Some (filename prefix j, fs2) /\
    (i < j)%nat /\
    (forall k, (i < k < j)%nat -> path_exists fs (filename prefix k) = true) /\
    fs2 !! filename prefix i = Some data1 /\
    fs2 !! filename prefix j = Some data2 /\
    forall path, path_exists fs path = true -> fs2 !! path = fs !! path.
Proof.
  intros Hfuel.
  destruct (get_unique_filename_least fs prefix fuel ltac:(lia))
    as (i & Hget1 & Hfree1 & Hbelow1).
  set (fs1 := write_csv data1 (filename prefix i) fs).
  assert (size fs1 = S (size fs)) as Hsize.
  { unfold fs1, write_csv. apply map_size_insert_None.
    unfold path_exists in Hfree1. apply bool_decide_eq_false in Hfree1.
    apply eq_None_not_Some. exact Hfree1. }
  destruct (get_unique_filename_least fs1 prefix fuel ltac:(lia))
    as (j & Hget2 & Hfree2 & Hbelow2).
  unfold fs1 in Hfree2. rewrite path_exists_write_csv in Hfree2.
  apply orb_false_iff in Hfree2 as [Hne Hfree2].
  apply bool_decide_eq_false in Hne.
  assert (i < j)%nat as Hlt.
  { destruct (Nat.lt_trichotomy i j) as [Hlt|[->|Hlt]]; [exact Hlt|done|].
    rewrite (Hbelow1 j Hlt) in Hfree2. discriminate. }
  exists i, j, fs1, (write_csv data2 (filename prefix j) fs1).
  unfold save_result. rewrite Hget1, Hget2. cbn [mbind option_bind].
  split; [reflexivity|]. split; [reflexivity|]. split; [exact Hlt|].
  split.
  { intros k Hk. specialize (Hbelow2 k ltac:(lia)).
    unfold fs1 in Hbelow2. rewrite path_exists_write_csv in Hbelow2.
    apply orb_true_iff in Hbelow2 as [Heq|Hex]; [|exact Hex].
    apply bool_decide_eq_true in Heq. apply Files.filename_inj in Heq. lia. }
  unfold fs1, write_csv. split.
  { rewrite lookup_insert_ne by (intros Heq; apply Hne; done).
    apply lookup_insert_eq. }
  split; [apply lookup_insert_eq|].
  intros path Hpath.
  rewrite !lookup_insert_ne; [reflexivity| |]; intros <-; congruence.
Qed.

Lemma save_twice_keeps_both_witness :
  exists i j fs1 fs2,
    save_result 3 ∅ "union_result_" [["Main St 1"; "50.45"; "30.52"]%string]
    = Some (filename "union_result_" i, fs1) /\
    save_result 3 fs1 "union_result_" [] = Some (filename "union_result_" j, fs2) /\
    (i < j)%nat /\
    (forall k, (i < k < j)%nat ->
       path_exists (∅ : filesystem) (filename "union_result_" k) = true) /\
    fs2 !! filename "union_result_" i
    = Some [["Main St 1"; "50.45"; "30.52"]%string] /\
    fs2 !! filename "union_result_" j = Some [] /\
    forall path, path_exists (∅ : filesystem) path = true -> fs2 !! path = (∅ : filesystem) !! path.
Proof.
  apply (save_twice_keeps_both ∅ "union_result_"
           [["Main St 1"; "50.45"; "30.52"]%string] [] 3).
  rewrite map_size_empty. lia.
Defined.

End FilesProps.
